(** * Hound: the HTTP query dispatcher and the per-repository searcher

    A shallow embedding of [api/api.go] (request parsing, repository
    selection, fan-out aggregation and the four handlers) and of the
    searcher package (found index references, the update mailbox and the
    refresh cycle), with the properties the specification states about
    them.

    Conventions.
    - Go [string]s are byte strings: [string] of [ascii].
    - Go [uint]/[uint64]/[int] are [Z] with the 64-bit wrap-around written
      out ([to_uint], [to_int]); the program runs on a 64-bit platform.
    - A Go [map[string]T] is a [gmap string T]; a nil map is [None].
    - A nil-able pointer or slice is an [option].
    - A buffered channel is the list of the values waiting in it, together
      with its capacity.
    - Code that may hit a nil dereference or an index out of range returns
      an [outcome], whose [Panic] stands for the Go run-time panic. *)

From Stdlib Require Import ZArith Ascii String List Lia Bool.
From stdpp Require Import base option list gmap strings fin_maps sorting.

Open Scope Z_scope.

(** ** Pieces of the Go standard library the code calls *)

Module golib.

(** [uint(x)] and [int(x)] conversions on a 64-bit platform. *)
Definition to_uint (z : Z) : Z := z mod 2 ^ 64.
Definition to_int (z : Z) : Z := (z + 2 ^ 63) mod 2 ^ 64 - 2 ^ 63.

Inductive NumError := ErrSyntax | ErrRange.

Definition byte_of (c : ascii) : Z := Z.of_N (N_of_ascii c).

(** The value of a base-10 digit; letters are digits of larger bases and
    every other byte is no digit at all: both are syntax errors in base 10. *)
Definition decimal_digit (c : ascii) : option Z :=
  let b := byte_of c in
  if (48 <=? b) && (b <=? 57) then Some (b - 48) else None.

(** The digit loop of [strconv.ParseUint] for [base = 10]: [cutoff] is the
    smallest number with [cutoff * 10 > 2^64 - 1]. *)
Definition cutoff : Z := (2 ^ 64 - 1) / 10 + 1.

Fixpoint parseUint_loop (maxVal n : Z) (s : string) : Z * option NumError :=
  match s with
  | EmptyString => (n, None)
  | String c rest =>
      match decimal_digit c with
      | None => (0, Some ErrSyntax)
      | Some d =>
          if cutoff <=? n then (maxVal, Some ErrRange)
          else
            let n10 := n * 10 in
            let n1 := to_uint (n10 + d) in
            if (n1 <? n10) || (maxVal <? n1) then (maxVal, Some ErrRange)
            else parseUint_loop maxVal n1 rest
      end
  end.

(** [strconv.ParseUint(s, 10, bitSize)] for [1 <= bitSize <= 64]. *)
Definition ParseUint (s : string) (bitSize : Z) : Z * option NumError :=
  match s with
  | EmptyString => (0, Some ErrSyntax)
  | _ => parseUint_loop (2 ^ bitSize - 1) 0 s
  end.

(** [strings.TrimSpace]: leading and trailing white space, as defined by
    Unicode, is removed.  On the left Go decodes one UTF-8 sequence at a
    time and strips it while it is a space; on the right it decodes the
    last sequence.  The space runes are the six ASCII ones and U+0085,
    U+00A0, U+1680, U+2000..U+200A, U+2028, U+2029, U+202F, U+205F and
    U+3000; each is listed here by its (unique, shortest-form) encoding, so
    stripping a rune is stripping one of these byte sequences. *)
Definition bytes (l : list Z) : string :=
  string_of_list_ascii (map (λ b, ascii_of_N (Z.to_N b)) l).

Definition spaces : list string :=
  map bytes
    ([ [9]; [10]; [11]; [12]; [13]; [32];
       [194; 133]; [194; 160]; [225; 154; 128] ]
     ++ map (λ b, [226; 128; b]) [128; 129; 130; 131; 132; 133; 134; 135; 136; 137; 138]
     ++ [ [226; 128; 168]; [226; 128; 169]; [226; 128; 175];
          [226; 129; 159]; [227; 128; 128] ]).

Fixpoint strip_prefix (p s : string) : option string :=
  match p, s with
  | EmptyString, _ => Some s
  | String a p', String b s' => if Ascii.eqb a b then strip_prefix p' s' else None
  | String _ _, EmptyString => None
  end.

(** The rest of [s] after one leading space, if it starts with one. *)
Fixpoint strip_any (ps : list string) (s : string) : option string :=
  match ps with
  | [] => None
  | p :: ps' =>
      match strip_prefix p s with
      | Some rest => Some rest
      | None => strip_any ps' s
      end
  end.

Definition strip_space (s : string) : option string := strip_any spaces s.

(** Every space sequence has at least one byte, so the string gets
    shorter at each step and its length is enough fuel. *)
Fixpoint trim_left_fuel (fuel : nat) (s : string) : string :=
  match fuel with
  | O => s
  | S fuel' =>
      match strip_space s with
      | Some rest => trim_left_fuel fuel' rest
      | None => s
      end
  end.

Definition TrimLeftSpace (s : string) : string :=
  trim_left_fuel (String.length s) s.

Definition rev_string (s : string) : string :=
  string_of_list_ascii (rev (list_ascii_of_string s)).

(** The same from the right, on the reversed bytes. *)
Definition strip_space_right (s : string) : option string :=
  rev_string <$> strip_any (map rev_string spaces) (rev_string s).

Fixpoint trim_right_fuel (fuel : nat) (s : string) : string :=
  match fuel with
  | O => s
  | S fuel' =>
      match strip_space_right s with
      | Some rest => trim_right_fuel fuel' rest
      | None => s
      end
  end.

Definition TrimRightSpace (s : string) : string :=
  trim_right_fuel (String.length s) s.

Definition TrimSpace (s : string) : string := TrimRightSpace (TrimLeftSpace s).

(** [strings.Split(s, sep)] for a separator of one byte: the pieces
    between the separators, the empty ones too; never the empty list. *)
Fixpoint Split (s : string) (sep : ascii) : list string :=
  match s with
  | EmptyString => [EmptyString]
  | String c rest =>
      if Ascii.eqb c sep then EmptyString :: Split rest sep
      else
        match Split rest sep with
        | piece :: pieces => String c piece :: pieces
        | [] => [String c EmptyString]
        end
  end.

(** [strings.Index(s, sep)] for a separator of one byte: the position of
    its first occurrence, or [-1]. *)
Fixpoint Index (s : string) (sep : ascii) : Z :=
  match s with
  | EmptyString => -1
  | String c rest =>
      if Ascii.eqb c sep then 0
      else let i := Index rest sep in if i <? 0 then -1 else i + 1
  end.

(** [strings.Index(s, substr)]: the position of the first occurrence of
    [substr], or [-1]. *)
Fixpoint Index_string (s substr : string) : Z :=
  if String.prefix substr s then 0
  else match s with
       | EmptyString => -1
       | String _ rest =>
           let i := Index_string rest substr in if i <? 0 then -1 else i + 1
       end.

(** The slices [s[:i]] and [s[i:]] for [0 <= i <= len(s)]. *)
Definition slice_to (s : string) (i : Z) : string :=
  String.substring 0 (Z.to_nat i) s.
Definition slice_from (s : string) (i : Z) : string :=
  String.substring (Z.to_nat i) (String.length s - Z.to_nat i) s.

(** [strings.ToLower] on the ASCII letters.  Bytes from 0x80 on are left as
    they are: Go lower-cases the runes they encode, and none of those
    becomes one of the letters of the words [parseAsBool] compares with. *)
Definition lower_byte (c : ascii) : ascii :=
  let b := byte_of c in
  if (65 <=? b) && (b <=? 90) then ascii_of_N (Z.to_N (b + 32)) else c.

Fixpoint ToLower (s : string) : string :=
  match s with
  | EmptyString => EmptyString
  | String c rest => String (lower_byte c) (ToLower rest)
  end.

(** [sort.Strings]: ascending byte-wise order.  Strings that compare equal
    are equal, so the result does not depend on the sorting algorithm. *)
Fixpoint insert_sorted (x : string) (l : list string) : list string :=
  match l with
  | [] => [x]
  | y :: l' => if String.leb x y then x :: l else y :: insert_sorted x l'
  end.

Definition sort_Strings (l : list string) : list string :=
  foldr insert_sorted [] l.

(** [sort.Search(n, f)]: binary search for the least index in [0, n) at
    which [f] holds; the interval halves each round, so [n] rounds are
    enough. *)
Fixpoint search_loop (fuel : nat) (f : Z → bool) (i j : Z) : Z :=
  match fuel with
  | O => i
  | S fuel' =>
      if i <? j then
        let h := (i + j) / 2 in
        if negb (f h) then search_loop fuel' f (h + 1) j
        else search_loop fuel' f i h
      else i
  end.

Definition Search (n : Z) (f : Z → bool) : Z := search_loop (S (Z.to_nat n)) f 0 n.

(** [sort.SearchStrings(a, x)] *)
Definition SearchStrings (a : list string) (x : string) : Z :=
  Search (Z.of_nat (length a))
    (λ i, match a !! Z.to_nat i with Some s => String.leb x s | None => false end).

End golib.

(** ** Errors and panics *)

(** A Go [error] value, by its message. *)
Definition error := string.

Inductive outcome (A : Type) : Type :=
| Ok (a : A)
| Panic.
Arguments Ok {A} a.
Arguments Panic {A}.

#[export] Instance outcome_ret : MRet outcome := λ A a, Ok a.
#[export] Instance outcome_bind : MBind outcome := λ A B f m,
  match m with
  | Ok a => f a
  | Panic => Panic
  end.

(** ** Package config (not among the sources) *)

Module config.

(** The type [config.UrlPattern]; the field of [Repo] has the name. *)
Record UrlPattern_t := { BaseUrl : string; Anchor : string }.

(** Modelled from the spec: the repository descriptor of package config,
    with the keys and defaults of the configuration file:
    [enable-poll-updates] (default true), [enable-push-updates] (default
    false), [hidden] (default false).  An absent key is [None]. *)
Record Repo := {
  Url : string;
  MsBetweenPolls : Z;
  Vcs : string;
  UrlPattern : option UrlPattern_t;
  ExcludeDotFiles : bool;
  EnablePollUpdates : option bool;
  EnablePushUpdates : option bool;
  Hidden : option bool;
  Revision : string
}.

Definition PollUpdatesEnabled (r : Repo) : bool := default true (EnablePollUpdates r).
Definition PushUpdatesEnabled (r : Repo) : bool := default false (EnablePushUpdates r).
Definition IsHidden (r : Repo) : bool := default false (Hidden r).

Definition set_Revision (rev : string) (r : Repo) : Repo :=
  {| Url := Url r; MsBetweenPolls := MsBetweenPolls r; Vcs := Vcs r;
     UrlPattern := UrlPattern r; ExcludeDotFiles := ExcludeDotFiles r;
     EnablePollUpdates := EnablePollUpdates r;
     EnablePushUpdates := EnablePushUpdates r;
     Hidden := Hidden r; Revision := rev |}.

End config.

(** ** Package index (not among the sources): the types the callers use *)

Module index.

(** Modelled from the spec: an index reference is the (url, revision,
    directory) triple identifying a persisted index. *)
Record IndexRef := { Url : string; Rev : string; dir : string }.

(** An open index; [Hidden] and [FileRepo] are the two fields the searcher
    writes. *)
Record Index := { Ref : IndexRef; Hidden : bool; FileRepo : string }.

Record IndexOptions := { ExcludeDotFiles : bool; SpecialFiles : list string }.

Record SearchOptions := {
  IgnoreCase : bool;
  LinesOfContext : Z;
  FileRegexp : string;
  Offset : Z;
  Limit : Z
}.

Record Match := {
  Line : string;
  LineNumber : Z;
  Before : list string;
  After : list string
}.

Record FileMatch := { Filename : string; FMatches : list Match }.

(** The fields of a search response that [api] reads and writes.  A nil
    slice or map is [None]. *)
Record SearchResponse := {
  Matches : option (list FileMatch);
  FilesWithMatch : Z;
  FilesOpened : Z;
  Revision : string;
  VMatches : option (gmap string (list FileMatch));
  VFilesWithMatch : option (gmap string Z);
  VRevision : option (gmap string string)
}.

(** An entry of the excluded-files log. *)
Record ExcludedFile := { EFilename : string; Reason : string }.

End index.

(** ** The environment: file system, version control, index files *)

(** The [vcs.WorkDir] of a repository: the driver interface the searcher
    consumes.  [PullOrClone] changes the working directory, so it takes
    and returns the state of the world. *)
Record WorkDir (World : Type) := {
  WorkingDirForRepo : string → config.Repo → string + error;
  PullOrClone : string → string → World → (string + error) * World;
  SpecialFiles : list string
}.
Arguments WorkingDirForRepo {World}.
Arguments PullOrClone {World}.
Arguments SpecialFiles {World}.

(** What the code calls outside this repository's sources: the state of
    the disk and of the random generator is a [World]; reading it is a
    function of it, changing it returns the next one. *)
Class Env := {
  World : Type;
  (* package vcs *)
  vcs_New : config.Repo → WorkDir World + error;
  (* package index *)
  index_Read : string → World → option index.IndexRef * option error;
  index_Build : index.IndexOptions → string → string → string → string →
                World → (index.IndexRef + error) * World;
  index_Open : string → World → (index.Index + error) * World;
  ref_Open : index.IndexRef → World → (index.Index + error) * World;
  ref_Remove : index.IndexRef → World → option error * World;
  idx_Destroy : index.Index → World → option error * World;
  idx_Search : index.Index → string → index.SearchOptions → list string →
               World → index.SearchResponse + error;
  (* os, path/filepath, math/rand, io/ioutil, encoding/json *)
  os_Stat : string → World → option error;
  filepath_Glob : string → World → list string + error;
  filepath_Join : list string → string;
  filepath_Base : string → string;
  rand_Uint32 : World → Z * World;
  ioutil_ReadFile : string → World → string * option error;
  json_Unmarshal : string → list index.ExcludedFile;
  json_Marshal : list index.ExcludedFile → string
}.

(** ** What the run time chooses *)

(** Go fixes neither the order in which [range] visits a map nor the
    order in which goroutines deliver their results.  Both are choices of
    the run time: [range m] is the order of one traversal of [m], some
    enumeration of its entries; [arrival l] is the order in which the
    values sent by the goroutines started in the order [l] are received,
    some rearrangement of them.  [elapsed_ms] is what the clock measures
    for a search. *)
Class Sched := {
  range : ∀ {V}, gmap string V → list (string * V);
  range_perm : ∀ {V} (m : gmap string V), range m ≡ₚ map_to_list m;
  arrival : ∀ {A}, list A → list A;
  arrival_perm : ∀ {A} (l : list A), arrival l ≡ₚ l;
  elapsed_ms : Z
}.

(** One such choice: maps in the order of [map_to_list], results in the
    order the goroutines were started. *)
Definition in_order : Sched := {|
  range := λ V m, map_to_list m;
  range_perm := λ V m, reflexivity (map_to_list m);
  arrival := λ A l, l;
  arrival_perm := λ A l, reflexivity l;
  elapsed_ms := 0
|}.

(** ** Package searcher *)

Module searcher.
Import golib.

(** A buffered channel is the queue of values waiting in it; a send that
    must not block ([select] with a [default] case) succeeds only while
    fewer than [cap] values wait. *)
Definition try_send {A} (cap : nat) (v : A) (buf : list A) : option (list A) :=
  if (length buf <? cap)%nat then Some (buf ++ [v]) else None.

(** [updateCh] and [shutdownCh] are made with capacity 1 by [newSearcher],
    the only place that makes a searcher. *)
Definition updateCh_cap : nat := 1.
Definition shutdownCh_cap : nat := 1.

Record Searcher := {
  idx : index.Index;
  Repo : option config.Repo;
  vrepos : gmap string string;
  updateCh : list Z;
  shutdownRequested : bool;
  shutdownCh : list unit;
  doneCh_closed : bool
}.

Definition set_idx (i : index.Index) (s : Searcher) : Searcher :=
  {| idx := i; Repo := Repo s; vrepos := vrepos s; updateCh := updateCh s;
     shutdownRequested := shutdownRequested s; shutdownCh := shutdownCh s;
     doneCh_closed := doneCh_closed s |}.
Definition set_Repo (r : option config.Repo) (s : Searcher) : Searcher :=
  {| idx := idx s; Repo := r; vrepos := vrepos s; updateCh := updateCh s;
     shutdownRequested := shutdownRequested s; shutdownCh := shutdownCh s;
     doneCh_closed := doneCh_closed s |}.
Definition set_vrepos (v : gmap string string) (s : Searcher) : Searcher :=
  {| idx := idx s; Repo := Repo s; vrepos := v; updateCh := updateCh s;
     shutdownRequested := shutdownRequested s; shutdownCh := shutdownCh s;
     doneCh_closed := doneCh_closed s |}.
Definition set_updateCh (c : list Z) (s : Searcher) : Searcher :=
  {| idx := idx s; Repo := Repo s; vrepos := vrepos s; updateCh := c;
     shutdownRequested := shutdownRequested s; shutdownCh := shutdownCh s;
     doneCh_closed := doneCh_closed s |}.
Definition set_shutdown (req : bool) (c : list unit) (s : Searcher) : Searcher :=
  {| idx := idx s; Repo := Repo s; vrepos := vrepos s; updateCh := updateCh s;
     shutdownRequested := req; shutdownCh := c;
     doneCh_closed := doneCh_closed s |}.
Definition close_doneCh (s : Searcher) : Searcher :=
  {| idx := idx s; Repo := Repo s; vrepos := vrepos s; updateCh := updateCh s;
     shutdownRequested := shutdownRequested s; shutdownCh := shutdownCh s;
     doneCh_closed := true |}.

(** The index references found at startup.  [refs] holds pointers, which
    may be nil; the keys of [claimed] are pointers too, and a pointer is
    told apart from the others by its position in [refs]. *)
Record foundRefs := {
  refs : list (option index.IndexRef);
  claimed : gset nat
}.

(** [find]: the first reference for the url and revision, with its
    position.  Reading [ref.Url] through a nil pointer panics. *)
Fixpoint find_from (i : nat) (l : list (option index.IndexRef)) (url rev : string)
  : outcome (option (nat * index.IndexRef)) :=
  match l with
  | [] => Ok None
  | None :: _ => Panic
  | Some ref :: l' =>
      if String.eqb (index.Url ref) url && String.eqb (index.Rev ref) rev
      then Ok (Some (i, ref))
      else find_from (S i) l' url rev
  end.

Definition find (r : foundRefs) (url rev : string)
  : outcome (option (nat * index.IndexRef)) :=
  find_from 0 (refs r) url rev.


(** [Update]: the API's request for an immediate poll. *)
Definition Update (now : Z) (s : Searcher) : bool * Searcher :=
  match Repo s with
  | None => (true, s)
  | Some repo =>
      if negb (config.PushUpdatesEnabled repo) then (false, s)
      else
        match try_send updateCh_cap now (updateCh s) with
        | Some c => (true, set_updateCh c s)
        | None => (true, s)
        end
  end.

Definition Stop (s : Searcher) : Searcher :=
  match try_send shutdownCh_cap () (shutdownCh s) with
  | Some c => set_shutdown true c s
  | None => s
  end.

Definition completeShutdown (s : Searcher) : Searcher := close_doneCh s.

(** [begin]: the send blocks while the mailbox is full; [None] is "not
    yet". *)
Definition begin (now : Z) (s : Searcher) : option Searcher :=
  (λ c, set_updateCh c s) <$> try_send updateCh_cap now (updateCh s).

Definition GetVRepos {sched : Sched} (s : Searcher) : list string :=
  foldl (λ vs '(k, _), vs ++ [k]) [] (range (vrepos s)).

Definition GetVRepoRev (s : Searcher) (repo : string) : string :=
  default EmptyString (vrepos s !! repo).

(** [IsHidden] reads the descriptor through [s.Repo]. *)
Definition IsHidden (s : Searcher) : outcome bool :=
  match Repo s with
  | None => Panic
  | Some repo => Ok (config.IsHidden repo)
  end.

(** Which case of the [select] in [waitForUpdate] fires. *)
Inductive wake := UpdateEvent | TimerFired | ShutdownEvent.

(** [waitForUpdate]: a case can fire only when it is ready ([None]
    otherwise); the timer exists only for a positive delay. *)
Definition waitForUpdate (delay : Z) (ev : wake) (s : Searcher) : option Searcher :=
  match ev with
  | UpdateEvent =>
      match updateCh s with
      | _ :: rest => Some (set_updateCh rest s)
      | [] => None
      end
  | TimerFired => if 0 <? delay then Some s else None
  | ShutdownEvent =>
      match shutdownCh s with
      | _ :: rest => Some (set_shutdown (shutdownRequested s) rest s)
      | [] => None
      end
  end.

(** [fmt.Sprintf("%08x", r)] *)
Definition hex_digit (d : Z) : ascii :=
  default "0"%char (list_ascii_of_string "0123456789abcdef" !! Z.to_nat d).

Fixpoint hex_fuel (fuel : nat) (n : Z) (acc : string) : string :=
  match fuel with
  | O => acc
  | S fuel' =>
      let acc' := String (hex_digit (n mod 16)) acc in
      if n <? 16 then acc' else hex_fuel fuel' (n / 16) acc'
  end.

Definition hex08 (n : Z) : string :=
  let h := hex_fuel 16 n EmptyString in
  string_of_list_ascii (replicate (8 - String.length h)%nat "0"%char) +:+ h.

Section with_env.
Context {sys : Env}.

(** The searcher together with what its code reaches: the world, the
    number of tokens taken from the indexing limiter, and the log. *)
Record state := {
  sr : Searcher;
  world : World;
  lim : nat;
  log : list string
}.

Definition with_sr (f : Searcher → Searcher) (st : state) : state :=
  {| sr := f (sr st); world := world st; lim := lim st; log := log st |}.
Definition with_world (w : World) (st : state) : state :=
  {| sr := sr st; world := w; lim := lim st; log := log st |}.
Definition logf (msg : string) (st : state) : state :=
  {| sr := sr st; world := world st; lim := lim st; log := log st ++ [msg] |}.

(** [lim.Acquire()] returns once the limiter has room; the model starts
    there.  [lim.Release()] takes the token back out. *)
Definition Acquire (st : state) : state :=
  {| sr := sr st; world := world st; lim := S (lim st); log := log st |}.
Definition Release (st : state) : state :=
  {| sr := sr st; world := world st; lim := pred (lim st); log := log st |}.



(** [swapIndexes] *)
Definition swapIndexes (i : index.Index) (st : state) : option error * state :=
  let oldIdx := idx (sr st) in
  let st := with_sr (set_idx i) st in
  let '(err, w) := idx_Destroy oldIdx (world st) in
  (err, with_world w st).

(** [nextIndexDir]: the first random word is the high half. *)
Definition nextIndexDir (dbpath : string) (w : World) : string * World :=
  let '(hi, w) := rand_Uint32 w in
  let '(lo, w) := rand_Uint32 w in
  let r := Z.lor (Z.shiftl (to_uint hi) 32 mod 2 ^ 64) (to_uint lo) in
  (filepath_Join [dbpath; "idx-" +:+ hex08 r], w).

(** [findExistingRefs]: one [index.Read] per directory that [Glob]
    returns; the error of the read is dropped and the reference it
    returns is appended. *)
Definition findExistingRefs (dbpath : string) (w : World) : foundRefs + error :=
  match filepath_Glob (filepath_Join [dbpath; "idx-*"]) w with
  | inr err => inr err
  | inl dirs =>
      let refs :=
        foldl (λ refs dir, let '(r, _) := index_Read dir w in refs ++ [r]) [] dirs in
      inl {| refs := refs; claimed := ∅ |}
  end.

(** [buildAndOpenIndex] *)
Definition buildAndOpenIndex (opt : index.IndexOptions)
    (dbpath vcsDir idxDir url rev : string) (w : World)
  : (index.Index + error) * World :=
  match os_Stat idxDir w with
  | Some _ =>
      match index_Build opt idxDir vcsDir url rev w with
      | (inr err, w) => (inr err, w)
      | (inl r, w) => ref_Open r w
      end
  | None => index_Open idxDir w
  end.

(** [a[i]] on a slice: out of range panics. *)
Definition at_index {A} (l : list A) (i : Z) : outcome A :=
  if i <? 0 then Panic
  else match l !! Z.to_nat i with
       | Some x => Ok x
       | None => Panic
       end.

(** [a[i:]] on a slice: [i] beyond the length panics. *)
Definition slice_from_index {A} (l : list A) (i : nat) : outcome (list A) :=
  if (length l <? i)%nat then Panic else Ok (drop i l).

(** The loop of [GetExcludedFiles] over the entries of the log: an entry
    whose file name starts with [repo] is kept, its name cut to what
    follows the repository and the branch. *)
Fixpoint excluded_in (repo : string) (raw excluded : list index.ExcludedFile)
  : outcome (list index.ExcludedFile) :=
  match raw with
  | [] => Ok excluded
  | d :: rest =>
      if Index_string (index.EFilename d) repo =? 0 then
        let names := Split (index.EFilename d) "/" in
        names ← slice_from_index names 2;
        let d := {| index.EFilename := filepath_Join names;
                    index.Reason := index.Reason d |} in
        excluded_in repo rest (excluded ++ [d])
      else excluded_in repo rest excluded
  end.

(** [GetExcludedFiles]: the excluded-files log of the live index as JSON,
    cut down to a virtual repository when [repo] is not empty.  A file
    that cannot be read counts as empty (the error is only logged), and
    so does a log that is not JSON. *)
Definition GetExcludedFiles (s : Searcher) (repo : string) (w : World)
  : outcome string :=
  let path := filepath_Join [index.dir (index.Ref (idx s)); "excluded_files.json"] in
  let '(dat, _) := ioutil_ReadFile path w in
  if negb (String.eqb repo "") then
    let repo := filepath_Base repo in
    excluded ← excluded_in repo (json_Unmarshal dat) [];
    Ok (json_Marshal excluded)
  else Ok dat.

(** The loop of [setVRepos] over the directories [vcsDir/*/*]: the
    virtual repository [base/<repo>] is given the name of the branch
    directory. *)
Fixpoint add_vrepos (base : string) (dirs : list string) (vr : gmap string string)
  : outcome (gmap string string) :=
  match dirs with
  | [] => Ok vr
  | dir :: rest =>
      let names := Split dir "/" in
      let n := Z.of_nat (length names) in
      r ← at_index names (n - 2);
      b ← at_index names (n - 1);
      add_vrepos base rest (<[base +:+ "/" +:+ r := b]> vr)
  end.

(** [setVRepos]: for a hidden repository, marks the searcher's current
    index and rebuilds the virtual repository map. *)
Definition setVRepos (vcsDir : string) (st : state) : outcome (bool * state) :=
  match Repo (sr st) with
  | None => Panic
  | Some repo =>
      if config.IsHidden repo then
        let i := idx (sr st) in
        let i := {| index.Ref := index.Ref i;
                    index.Hidden := config.IsHidden repo;
                    index.FileRepo := filepath_Base vcsDir |} in
        let st := with_sr (set_idx i) st in
        let st := with_sr (set_vrepos ∅) st in
        match filepath_Glob (filepath_Join [vcsDir; "*"; "*"]) (world st) with
        | inr _ => Ok (false, st)
        | inl dirs =>
            vr ← add_vrepos (filepath_Base vcsDir) dirs (vrepos (sr st));
            Ok (true, with_sr (set_vrepos vr) st)
        end
      else Ok (true, st)
  end.

(** [updateAndReindex]: one attempt to pull and, when the revision
    changed, to rebuild and swap the index.  The result is the revision
    the loop is to keep and whether a new index went live.  The token of
    the limiter is given back on every return (the [defer]). *)
Definition updateAndReindex (dbpath vcsDir name rev : string)
    (wd : WorkDir World) (opt : index.IndexOptions) (st : state)
  : outcome (string * bool * state) :=
  let st := Acquire st in
  match Repo (sr st) with
  | None => Panic
  | Some repo =>
      let '(pulled, w) := PullOrClone wd vcsDir (config.Url repo) (world st) in
      let st := with_world w st in
      match pulled with
      | inr err =>
          let st := logf ("vcs pull error (" +:+ name +:+ " - " +:+ config.Url repo
                          +:+ "): " +:+ err) st in
          Ok (rev, false, Release st)
      | inl newRev =>
          if String.eqb newRev rev then Ok (rev, false, Release st)
          else
            let st := logf ("Rebuilding " +:+ name +:+ " for " +:+ newRev) st in
            let '(idxDir, w) := nextIndexDir dbpath (world st) in
            let '(built, w) :=
              buildAndOpenIndex opt dbpath vcsDir idxDir (config.Url repo) newRev w in
            let st := with_world w st in
            match built with
            | inr err =>
                let st := logf ("failed index build (" +:+ name +:+ "): " +:+ err) st in
                Ok (rev, false, Release st)
            | inl i =>
                let st := with_sr (set_Repo (Some (config.set_Revision newRev repo))) st in
                '(_, st) ← setVRepos vcsDir st;
                match swapIndexes i st with
                | (Some err, st) =>
                    let st := logf ("failed index swap (" +:+ name +:+ "): " +:+ err) st in
                    let '(derr, w) := idx_Destroy i (world st) in
                    let st := with_world w st in
                    let st :=
                      match derr with
                      | Some err =>
                          logf ("failed to destroy index (" +:+ name +:+ "): " +:+ err) st
                      | None => st
                      end in
                    Ok (rev, false, Release st)
                | (None, st) => Ok (newRev, true, Release st)
                end
            end
      end
  end.

(** What the refresh goroutine of a searcher keeps in its closure. *)
Record poller := {
  p_dbpath : string;
  p_name : string;
  p_vcsDir : string;
  p_wd : WorkDir World;
  p_opt : index.IndexOptions;
  p_rev : string
}.

Definition set_rev (rev : string) (p : poller) : poller :=
  {| p_dbpath := p_dbpath p; p_name := p_name p; p_vcsDir := p_vcsDir p;
     p_wd := p_wd p; p_opt := p_opt p; p_rev := rev |}.


(** The delay between polls, in nanoseconds (an [int64]); zero when
    polling is disabled. *)
Definition poll_delay (repo : config.Repo) : Z :=
  if config.PollUpdatesEnabled repo
  then to_int (to_int (config.MsBetweenPolls repo) * 1000000)
  else 0.

(** How one round of the refresh loop ends. *)
Inductive next := Continue | Exit.

(** The start of the refresh goroutine: it is held until [begin] sends
    the first event ([None] before that), and is done at once when
    neither polling nor push updates are enabled; otherwise it enters the
    loop with the delay between polls. *)
Definition start (st : state) : option (outcome (next * Z * state)) :=
  match updateCh (sr st) with
  | [] => None
  | _ :: rest =>
      let st := with_sr (set_updateCh rest) st in
      Some
        match Repo (sr st) with
        | None => Panic
        | Some repo =>
            if negb (config.PollUpdatesEnabled repo)
               && negb (config.PushUpdatesEnabled repo)
            then Ok (Exit, 0, with_sr completeShutdown st)
            else Ok (Continue, poll_delay repo, st)
        end
  end.

(** One round of the [for] loop of the refresh goroutine, for the case
    [ev] of the [select]: [None] when that case cannot fire. *)
Definition cycle (delay : Z) (ev : wake) (p : poller) (st : state)
  : option (outcome (next * poller * state)) :=
  match waitForUpdate delay ev (sr st) with
  | None => None
  | Some s =>
      let st := with_sr (λ _, s) st in
      Some
        (if shutdownRequested s then Ok (Exit, p, with_sr completeShutdown st)
         else
           '(newRev, ok, st) ← updateAndReindex (p_dbpath p) (p_vcsDir p)
                                  (p_name p) (p_rev p) (p_wd p) (p_opt p) st;
           if negb ok then Ok (Continue, p, st)
           else Ok (Continue, set_rev newRev p, st))
  end.

(** What [newSearcherConcurrent] posts: the searcher, or the error. *)
Record searcherResult := { name : string; result : Searcher + error }.

(** The loop of [MakeAll] that collects the results: the searchers that
    were built go to the live map, the errors to the error map. *)
Definition collect (results : list searcherResult)
  : gmap string Searcher * gmap string error :=
  foldl (λ '(searchers, errs) r,
           match result r with
           | inr err => (searchers, <[name r := err]> errs)
           | inl s => (<[name r := s]> searchers, errs)
           end)
        (∅, ∅) results.

End with_env.

End searcher.

(** ** Package api *)

Module api.
Import golib.
Import searcher.

Definition defaultLinesOfContext : Z := 2.
Definition maxLinesOfContext : Z := 20.
Definition defaultFilesOpened : Z := 5.

Record Stats := { FilesOpened : Z; Duration : Z }.

(** A request, as far as the handlers look at it. *)
Record Request := { Method : string; Form : gmap string (list string) }.

(** [r.FormValue(key)]: the first value of the key, or the empty string. *)
Definition FormValue (r : Request) (key : string) : string :=
  match Form r !! key with
  | Some (v :: _) => v
  | _ => EmptyString
  end.

(** What a handler writes: the status and the body, which is the JSON
    encoding of one of these values or, for [RawBody], the text itself. *)
Inductive body :=
| ErrorBody (msg : string)
| StringBody (s : string)
| ReposBody (repos : gmap string config.Repo)
| SearchBody (results : option (gmap string index.SearchResponse)) (stats : option Stats)
| RawBody (text : string).

Record Response := { Status : Z; Body : body }.

Definition StatusOK : Z := 200.
Definition StatusForbidden : Z := 403.
Definition StatusNotFound : Z := 404.
Definition StatusMethodNotAllowed : Z := 405.

Definition writeJson (data : body) (status : Z) : Response :=
  {| Status := status; Body := data |}.
Definition writeResp (data : body) : Response := writeJson data StatusOK.
Definition writeError (err : error) (status : Z) : Response :=
  writeJson (ErrorBody err) status.

Definition parseAsBool (v : string) : bool :=
  let v := ToLower v in
  String.eqb v "true" || String.eqb v "1" || String.eqb v "fosho".

Definition parseAsUintValue (sv : string) (min max def : Z) : Z :=
  match ParseUint sv 54 with
  | (_, Some _) => def
  | (iv, None) =>
      if negb (max =? 0) && (max <? to_uint iv) then max
      else if negb (min =? 0) && (to_uint iv <? min) then max
      else to_uint iv
  end.

Definition parseRangeInt (v : string) : Z :=
  if String.eqb v "" then 0
  else match ParseUint v 64 with
       | (_, Some _) => 0
       | (vi, None) => to_int vi
       end.

Definition parseRangeValue (rv : string) : Z * Z :=
  let ix := Index rv ":" in
  if ix <? 0 then (0, 0)
  else (parseRangeInt (slice_to rv ix), parseRangeInt (slice_from rv (ix + 1))).

Section with_sched.
Context {sched : Sched}.

(** The second loop of [parseAsRepoList]: every hidden repository of the
    map is added to the selection. *)
Fixpoint add_hidden (l : list (string * Searcher)) (repos : list string)
  : outcome (list string) :=
  match l with
  | [] => Ok repos
  | (repo, s) :: rest =>
      IsHidden s ≫= λ hidden : bool,
        add_hidden rest (if hidden then repos ++ [repo] else repos)
  end.

(** [parseAsRepoList]: the selected repositories and the names that are
    not in the map (the virtual selectors), the latter sorted. *)
Definition parseAsRepoList (v : string) (idx : gmap string Searcher)
  : outcome (list string * list string) :=
  let v := TrimSpace v in
  if String.eqb v "*" || String.eqb v "" then
    Ok (foldl (λ repos '(repo, _), repos ++ [repo]) [] (range idx), [])
  else
    let '(useHiddenRepos, repos, vrepos) :=
      foldl (λ '(use, repos, vrepos) repo,
               match idx !! repo with
               | None => (true, repos, vrepos ++ [repo])
               | Some _ => (use, repos ++ [repo], vrepos)
               end)
            (false, [], []) (Split v ",") in
    repos ← (if useHiddenRepos then add_hidden (range idx) repos else Ok repos);
    Ok (repos, sort_Strings vrepos).

Context {sys : Env}.

(** What one goroutine of [searchAll] sends: the repository with the
    response or the error of its search. *)
Definition searchResponse : Type := string * (index.SearchResponse + error).

(** The first loop of [searchAll]: one goroutine per selected repository
    that is in the map; each sends the result of its search. *)
Definition launch (query : string) (opts : index.SearchOptions)
    (repos vrepos : list string) (idx : gmap string Searcher) (w : World)
  : list searchResponse :=
  foldl (λ sent repo,
           match idx !! repo with
           | None => sent
           | Some s => sent ++ [(repo, idx_Search (searcher.idx s) query opts vrepos w)]
           end)
        [] repos.

(** A response after its three maps of virtual results were set to nil. *)
Definition unset_keys (r : index.SearchResponse) : index.SearchResponse :=
  {| index.Matches := index.Matches r;
     index.FilesWithMatch := index.FilesWithMatch r;
     index.FilesOpened := index.FilesOpened r;
     index.Revision := index.Revision r;
     index.VMatches := None;
     index.VFilesWithMatch := None;
     index.VRevision := None |}.

(** The response made for one virtual repository of a hidden one. *)
Definition virtual_response (r : index.SearchResponse) (filerepo : string)
    (vresult : list index.FileMatch) : index.SearchResponse :=
  {| index.Matches := Some vresult;
     index.FilesWithMatch :=
       default 0 (default ∅ (index.VFilesWithMatch r) !! filerepo);
     index.FilesOpened := 0;
     index.Revision :=
       default EmptyString (default ∅ (index.VRevision r) !! filerepo);
     index.VMatches := None;
     index.VFilesWithMatch := None;
     index.VRevision := None |}.

(** The second loop of [searchAll], over the results in the order in
    which they are received.  The response stored under [res[r.repo]] is
    the object whose keys are unset right after, so it is stored with
    them unset. *)
Fixpoint receive (received : list searchResponse)
    (res : gmap string index.SearchResponse) (filesOpened : Z)
  : (option (gmap string index.SearchResponse) * option error) * Z :=
  match received with
  | [] => ((Some res, None), filesOpened)
  | (repo, inr err) :: _ => ((None, Some err), filesOpened)
  | (repo, inl r) :: rest =>
      match index.Matches r, index.VMatches r with
      | None, None => receive rest res filesOpened
      | matches, vmatches =>
          let res :=
            if bool_decide (0 < size (default ∅ vmatches))%nat then
              foldl (λ res '(filerepo, vresult),
                       <[filerepo := virtual_response r filerepo vresult]> res)
                    res (range (default ∅ vmatches))
            else if bool_decide (is_Some matches) then
              <[repo := unset_keys r]> res
            else res in
          receive rest res (to_int (filesOpened + index.FilesOpened r))
      end
  end.

(** [searchAll]: with the map of results or the error, the values left in
    [*filesOpened] and [*duration]. *)
Definition searchAll (query : string) (opts : index.SearchOptions)
    (repos vrepos : list string) (idx : gmap string Searcher)
    (filesOpened duration : Z) (w : World)
  : (option (gmap string index.SearchResponse) * option error) * Z * Z :=
  let sent := launch query opts repos vrepos idx w in
  match receive (arrival sent) ∅ filesOpened with
  | ((None, err), filesOpened) => ((None, err), filesOpened, duration)
  | ((Some res, err), filesOpened) => ((Some res, err), filesOpened, elapsed_ms)
  end.

(** The options of a search request, as the search handler builds them
    once the selection [repos] is known. *)
Definition searchOptions (r : Request) (repos : list string) : index.SearchOptions :=
  let '(offset, limit) := parseRangeValue (FormValue r "rng") in
  let opt := {| index.Offset := offset;
                index.Limit := limit;
                index.FileRegexp := FormValue r "files";
                index.IgnoreCase := parseAsBool (FormValue r "i");
                index.LinesOfContext :=
                  parseAsUintValue (FormValue r "ctx") 0
                    maxLinesOfContext defaultLinesOfContext |} in
  if (1 <? length repos)%nat then
    {| index.Offset := index.Offset opt;
       index.Limit := defaultFilesOpened;
       index.FileRegexp := index.FileRegexp opt;
       index.IgnoreCase := index.IgnoreCase opt;
       index.LinesOfContext := index.LinesOfContext opt |}
  else opt.

(** The global [gSearchers]: nil until [SetSearchers] is called. *)
Definition SetSearchers (searchers : option (gmap string Searcher))
  : option (gmap string Searcher) := searchers.

(** [len(m)] of a map that may be nil. *)
Definition len_map {V} (m : option (gmap string V)) : Z :=
  Z.of_nat (size (default ∅ m)).

(** The answer of a server that is not ready. *)
Definition notReady : Response :=
  writeError "Server is not ready, please wait..." StatusOK.

(** [checkReady]: [None] when the server is ready (the Go function
    returns true); otherwise the error it writes (and it returns false). *)
Definition checkReady (gSearchers : option (gmap string Searcher)) : option Response :=
  if bool_decide (is_Some gSearchers) && negb (len_map gSearchers <=? 0) then None
  else Some notReady.

(** A handler answers a request at a time [now], reading the disk [w]
    and the global map, and possibly changing the searchers in the map. *)
Definition handler : Type :=
  Request → Z → World → option (gmap string Searcher) →
  outcome (Response * option (gmap string Searcher)).

(** [/api/v1/repos] *)
Fixpoint repos_loop (l : list (string * Searcher)) (res : gmap string config.Repo)
  : outcome (gmap string config.Repo) :=
  match l with
  | [] => Ok res
  | (name, s) :: rest =>
      IsHidden s ≫= λ hidden : bool,
        match Repo s with
        | None => Panic
        | Some repo =>
            if hidden then
              repos_loop rest
                (foldl (λ res v,
                          <[v := {| config.Url := EmptyString;
                                    config.MsBetweenPolls := 0;
                                    config.Vcs := EmptyString;
                                    config.UrlPattern := config.UrlPattern repo;
                                    config.ExcludeDotFiles := false;
                                    config.EnablePollUpdates := None;
                                    config.EnablePushUpdates := None;
                                    config.Hidden := None;
                                    config.Revision := GetVRepoRev s v |}]> res)
                       res (GetVRepos s))
            else repos_loop rest (<[name := repo]> res)
        end
  end.

Definition handle_repos : handler := λ r now w gSearchers,
  match checkReady gSearchers with
  | Some notReady => Ok (notReady, gSearchers)
  | None =>
      res ← repos_loop (range (default ∅ gSearchers)) ∅;
      Ok (writeResp (ReposBody res), gSearchers)
  end.

(** [/api/v1/search] *)
Definition handle_search : handler := λ r now w gSearchers,
  match checkReady gSearchers with
  | Some notReady => Ok (notReady, gSearchers)
  | None =>
      let stats := parseAsBool (FormValue r "stats") in
      parseAsRepoList (FormValue r "repos") (default ∅ gSearchers)
        ≫= λ '(repos, vrepos),
      let query := FormValue r "q" in
      let opt := searchOptions r repos in
      let query := TrimSpace query in
      if (Z.of_nat (String.length query) <=? 0) then
        Ok (writeError "No query" StatusOK, gSearchers)
      else
        let '(results, err, filesOpened, durationMs) :=
          searchAll query opt repos vrepos (default ∅ gSearchers) 0 0 w in
        match err with
        | Some err => Ok (writeError err StatusOK, gSearchers)
        | None =>
            Ok (writeResp
                  (SearchBody results
                     (if stats then Some {| FilesOpened := filesOpened;
                                            Duration := durationMs |}
                      else None)),
                gSearchers)
        end
  end.

(** [/api/v1/excludes] *)
Fixpoint excludes_loop (l : list (string * Searcher)) (repo res : string) (w : World)
  : outcome string :=
  match l with
  | [] => Ok res
  | (_, s) :: rest =>
      IsHidden s ≫= λ hidden : bool,
        if hidden then
          let vrepos := GetVRepos s in
          let i := SearchStrings vrepos repo in
          if (i <? Z.of_nat (length vrepos))
             && String.eqb (default EmptyString (vrepos !! Z.to_nat i)) repo
          then GetExcludedFiles s repo w
          else excludes_loop rest repo res w
        else excludes_loop rest repo res w
  end.

Definition handle_excludes : handler := λ r now w gSearchers,
  match checkReady gSearchers with
  | Some notReady => Ok (notReady, gSearchers)
  | None =>
      let repo := FormValue r "repo" in
      res ← match default ∅ gSearchers !! repo with
            | None => excludes_loop (range (default ∅ gSearchers)) repo "[]" w
            | Some s => GetExcludedFiles s EmptyString w
            end;
      Ok ({| Status := StatusOK; Body := RawBody res |}, gSearchers)
  end.

(** [/api/v1/update]: the searchers are reached through the pointers in
    the map, so what [Update] does to one is seen in the map. *)
Fixpoint update_loop (repos : list string) (now : Z) (gSearchers : gmap string Searcher)
  : Response * gmap string Searcher :=
  match repos with
  | [] => (writeResp (StringBody "ok"), gSearchers)
  | repo :: rest =>
      match gSearchers !! repo with
      | None =>
          (writeError ("No such repository: " +:+ repo) StatusNotFound, gSearchers)
      | Some s =>
          let '(ok, s) := Update now s in
          let gSearchers := <[repo := s]> gSearchers in
          if negb ok then
            (writeError ("Push updates are not enabled for repository " +:+ repo)
               StatusForbidden, gSearchers)
          else update_loop rest now gSearchers
      end
  end.

Definition handle_update : handler := λ r now w gSearchers,
  match checkReady gSearchers with
  | Some notReady => Ok (notReady, gSearchers)
  | None =>
      if negb (String.eqb (Method r) "POST") then
        Ok (writeError "Method Not Allowed" StatusMethodNotAllowed, gSearchers)
      else
        parseAsRepoList (FormValue r "repos") (default ∅ gSearchers)
          ≫= λ '(repos, _),
        let '(resp, searchers) := update_loop repos now (default ∅ gSearchers) in
        Ok (resp, Some searchers)
  end.

(** Whether the repository of the map refuses push updates. *)
Definition push_off (gSearchers : gmap string Searcher) (repo : string) : bool :=
  match gSearchers !! repo ≫= Repo with
  | Some r => negb (config.PushUpdatesEnabled r)
  | None => false
  end.

(** [Setup]: the four routes. *)
Definition Setup : list (string * handler) :=
  [ ("/api/v1/repos", handle_repos);
    ("/api/v1/search", handle_search);
    ("/api/v1/excludes", handle_excludes);
    ("/api/v1/update", handle_update) ].

End with_sched.

End api.



(** ** Package vcs: the local driver, and a small world to run the code in *)

Module vcs.
Import golib.

(** [strings.TrimPrefix] *)
Definition TrimPrefix (s p : string) : string := default s (strip_prefix p s).

(** For the local driver the world is the modification time, printed, of
    each directory that exists. *)
Definition local_world : Type := gmap string string.

(** [LocalDriver]: the working directory is the path of the url; a pull
    reads the modification time of the directory (its revision); a
    clone, which is what [PullOrClone] does when the directory is not
    there, always fails. *)
Definition LocalDriver : WorkDir local_world := {|
  WorkingDirForRepo := λ dbpath repo, inl (TrimPrefix (config.Url repo) "file://");
  PullOrClone := λ dir url w,
    match w !! dir with
    | Some mtime => (inl mtime, w)
    | None => (inr ("Location " +:+ url +:+ " not found."), w)
    end;
  SpecialFiles := [".bzr"; ".git"; ".hg"; ".svn"]
|}.

End vcs.

Module example.
Import golib searcher api.

(** A world for the examples: the directories with their modification
    times, and under the database root the index directories, each with
    the reference its manifest holds when it can be read. *)
Record world := {
  mtimes : gmap string string;
  idx_dirs : list (string * option index.IndexRef)
}.

Definition open_ref (r : index.IndexRef) : index.Index :=
  {| index.Ref := r; index.Hidden := false; index.FileRepo := EmptyString |}.

Definition empty_response (rev : string) : index.SearchResponse :=
  {| index.Matches := Some []; index.FilesWithMatch := 0; index.FilesOpened := 1;
     index.Revision := rev; index.VMatches := None;
     index.VFilesWithMatch := None; index.VRevision := None |}.

(** Every repository is local; an index directory is read from
    [idx_dirs]; a search fails on the pattern ["("] and finds nothing
    otherwise. *)
(** The local driver on the directories of the world. *)
Definition local_wd : WorkDir world := {|
  WorkingDirForRepo := WorkingDirForRepo vcs.LocalDriver;
  PullOrClone := λ dir url w,
    (fst (PullOrClone vcs.LocalDriver dir url (mtimes w)), w);
  SpecialFiles := SpecialFiles vcs.LocalDriver
|}.

Definition env : Env := {|
  World := world;
  vcs_New := λ repo, inl local_wd;
  index_Read := λ d w,
    match list_find (λ e, e.1 = d) (idx_dirs w) with
    | Some (_, (_, Some ref)) => (Some ref, None)
    | _ => (Some {| index.Url := EmptyString; index.Rev := EmptyString; index.dir := d |},
            Some ("open " +:+ d +:+ "/metadata.gob: no such file or directory"))
    end;
  index_Build := λ opt idxDir vcsDir url rev w,
    (inl {| index.Url := url; index.Rev := rev; index.dir := idxDir |}, w);
  index_Open := λ d w,
    (inl (open_ref {| index.Url := EmptyString; index.Rev := EmptyString;
                      index.dir := d |}), w);
  ref_Open := λ r w, (inl (open_ref r), w);
  ref_Remove := λ r w, (None, w);
  idx_Destroy := λ i w, (None, w);
  idx_Search := λ i query opts vrepos w,
    if String.eqb query "(" then inr "error parsing regexp: missing closing ): `(`"
    else inl (empty_response (index.Rev (index.Ref i)));
  os_Stat := λ d w,
    match list_find (λ e, e.1 = d) (idx_dirs w) with
    | Some _ => None
    | None => Some ("stat " +:+ d +:+ ": no such file or directory")
    end;
  filepath_Glob := λ pattern w, inl (idx_dirs w).*1;
  filepath_Join := λ parts, foldr (λ a b, if String.eqb b "" then a else a +:+ "/" +:+ b) EmptyString parts;
  filepath_Base := λ p, default EmptyString (last (Split p "/"));
  rand_Uint32 := λ w, (0, w);
  ioutil_ReadFile := λ path w, ("[]"%string, None);
  json_Unmarshal := λ dat, [];
  json_Marshal := λ l, "[]"%string
|}.

Definition repo_of (url : string) (push hidden : option bool) : config.Repo :=
  {| config.Url := url; config.MsBetweenPolls := 0; config.Vcs := "local";
     config.UrlPattern := None; config.ExcludeDotFiles := false;
     config.EnablePollUpdates := None; config.EnablePushUpdates := push;
     config.Hidden := hidden; config.Revision := "r1" |}.

Definition searcher_of (repo : config.Repo) : Searcher :=
  {| idx := open_ref {| index.Url := config.Url repo; index.Rev := "r1";
                        index.dir := "data/idx-0000000000000001" |};
     Repo := Some repo; vrepos := ∅; updateCh := [];
     shutdownRequested := false; shutdownCh := []; doneCh_closed := false |}.

(** Repositories [A] and [B] accept push updates, [C] does not, [H] is
    hidden. *)
Definition sA : Searcher := searcher_of (repo_of "file:///tmp/A" (Some true) None).
Definition sB : Searcher := searcher_of (repo_of "file:///tmp/B" (Some true) None).
Definition sC : Searcher := searcher_of (repo_of "file:///tmp/C" None None).
Definition sH : Searcher := searcher_of (repo_of "file:///data/org" (Some true) (Some true)).

Definition form (kvs : list (string * string)) : gmap string (list string) :=
  list_to_map (map (λ '(k, v), (k, [v])) kvs).

Definition GET (kvs : list (string * string)) : Request :=
  {| Method := "GET"; Form := form kvs |}.
Definition POST (kvs : list (string * string)) : Request :=
  {| Method := "POST"; Form := form kvs |}.

(** The refresh goroutine of [A], woken by an update request while the
    directory of [A] is gone. *)
Definition poller_A : poller (sys := env) :=
  @Build_poller env "data" "A" "/tmp/A" local_wd
    {| index.ExcludeDotFiles := false;
       index.SpecialFiles := SpecialFiles local_wd |}
    "r1".

Definition no_dirs : world := {| mtimes := ∅; idx_dirs := [] |}.

Definition st_A : state (sys := env) :=
  @Build_state env (set_updateCh [5] sA) no_dirs 0 [].

(** A database root with one index directory whose manifest cannot be
    read. *)
Definition stale_dir : world :=
  {| mtimes := ∅; idx_dirs := [("data/idx-0badc0de", None)] |}.

End example.

(** ** The server: startup and reload of the configuration *)

Module main.
Import golib searcher api.

Section reload.
Context {sched : Sched}.

(** [Repo.ToJsonString], of package config: the descriptor as JSON. *)
Variable ToJsonString : config.Repo → string.

(** What the callback of [checkConfigChange] works on: the repositories
    of the running configuration [cfg] and of the configuration just
    read [cfgn], and the names to stop. *)
Record reload := {
  cfg_Repos : gmap string config.Repo;
  cfgn_Repos : gmap string config.Repo;
  deleted : gmap string string
}.

(** The body of the loop over [cfg.Repos]: an unchanged repository is
    taken out of [cfgn]; a changed one is marked; one that is gone is
    taken out of [cfg] and marked. *)
Definition mark (d : reload) (e : string * config.Repo) : reload :=
  let '(name, repo) := e in
  match cfgn_Repos d !! name with
  | Some repo1 =>
      if String.eqb (ToJsonString repo) (ToJsonString repo1) then
        {| cfg_Repos := cfg_Repos d;
           cfgn_Repos := delete name (cfgn_Repos d);
           deleted := deleted d |}
      else
        {| cfg_Repos := cfg_Repos d;
           cfgn_Repos := cfgn_Repos d;
           deleted := <[name := name]> (deleted d) |}
  | None =>
      {| cfg_Repos := delete name (cfg_Repos d);
         cfgn_Repos := cfgn_Repos d;
         deleted := <[name := name]> (deleted d) |}
  end.

(** The body of the loop over what is left of [cfgn.Repos]: a new
    repository and a changed one go into [cfg]. *)
Definition add_back (d : reload) (e : string * config.Repo) : reload :=
  let '(name, repo) := e in
  match cfg_Repos d !! name with
  | None =>
      {| cfg_Repos := <[name := repo]> (cfg_Repos d);
         cfgn_Repos := cfgn_Repos d;
         deleted := deleted d |}
  | Some _ =>
      if bool_decide (is_Some (deleted d !! name)) then
        {| cfg_Repos := <[name := repo]> (cfg_Repos d);
           cfgn_Repos := cfgn_Repos d;
           deleted := deleted d |}
      else d
  end.

(** The two loops, one after the other.  The first ranges over
    [cfg.Repos] and deletes from it only the entry it is at. *)
Definition diff (cfg cfgn : gmap string config.Repo) : reload :=
  let d := foldl mark {| cfg_Repos := cfg; cfgn_Repos := cfgn; deleted := ∅ |}
                 (range cfg) in
  foldl add_back d (range (cfgn_Repos d)).

(** The loop that stops the marked searchers, waits for them and takes
    them out of the live map; with the map that is left, the searchers
    that were stopped. *)
Definition stop_deleted (searchers : gmap string Searcher) (deleted : gmap string string)
  : gmap string Searcher * list Searcher :=
  if 0 <? len_map (Some deleted) then
    foldl (λ '(live, stopped) '(name, s),
             if bool_decide (is_Some (deleted !! name))
             then (delete name live, stopped ++ [Stop s])
             else (live, stopped))
          (searchers, []) (range searchers)
  else (searchers, []).

(** The last loop: the searchers just made go into the live map. *)
Definition add_searchers (searchers idxn : gmap string Searcher)
  : gmap string Searcher :=
  foldl (λ live '(name, s), <[name := s]> live) searchers (range idxn).

(** What [makeAllSearchers] does to the configuration after [MakeAll]:
    the repositories that failed to build are taken out of it. *)
Definition drop_failed (cfg : gmap string config.Repo) (errs : gmap string error)
  : gmap string config.Repo :=
  if 0 <? len_map (Some errs) then
    foldl (λ repos '(name, _), delete name repos) cfg (range errs)
  else cfg.

End reload.

End main.

(** ** A second world for the examples *)

Module example2.
Import golib searcher api.

(** The environment of the examples, with an excluded-files log of the
    given entries in every index directory, and with indexes that cannot
    be destroyed when [stuck] is set. *)
Definition env (entries : list index.ExcludedFile) (stuck : bool) : Env := {|
  World := example.world;
  vcs_New := vcs_New (Env := example.env);
  index_Read := index_Read (Env := example.env);
  index_Build := index_Build (Env := example.env);
  index_Open := index_Open (Env := example.env);
  ref_Open := ref_Open (Env := example.env);
  ref_Remove := ref_Remove (Env := example.env);
  idx_Destroy := λ i w,
    (if stuck then Some ("remove " +:+ index.dir (index.Ref i) +:+ ": permission denied")
     else None, w);
  idx_Search := idx_Search (Env := example.env);
  os_Stat := os_Stat (Env := example.env);
  filepath_Glob := filepath_Glob (Env := example.env);
  filepath_Join := filepath_Join (Env := example.env);
  filepath_Base := filepath_Base (Env := example.env);
  rand_Uint32 := rand_Uint32 (Env := example.env);
  ioutil_ReadFile := ioutil_ReadFile (Env := example.env);
  json_Unmarshal := λ dat, entries;
  json_Marshal := json_Marshal (Env := example.env)
|}.

(** The directory of [A] exists and was changed since revision [r1]. *)
Definition changed : example.world :=
  {| example.mtimes := {[ "/tmp/A"%string := "r2"%string ]}; example.idx_dirs := [] |}.





End example2.

(** ** Notions the further properties are stated with *)

Module notions.
Import golib searcher api.

#[export] Instance outcome_eq_dec {A} `{EqDecision A} : EqDecision (outcome A).
Proof. solve_decision. Defined.

(** What one or more calls of [Update] at the time [now] may do to a
    searcher: nothing, or put [now] into its empty mailbox. *)
Definition poked (now : Z) (s s' : Searcher) : Prop :=
  s' = set_updateCh (updateCh s') s
  ∧ (updateCh s' = updateCh s ∨ updateCh s = [] ∧ updateCh s' = [now]).

(** The two mailboxes of a searcher with its shutdown flag and its
    completion channel: what the API and the coordinator talk to the
    refresh loop through. *)
Definition mailboxes (s : Searcher) : list Z * bool * list unit * bool :=
  (updateCh s, shutdownRequested s, shutdownCh s, doneCh_closed s).


(** A reference that [find] passes over: it is there and is for another
    url or revision. *)
Definition passed_over (url rev : string) (e : option index.IndexRef) : Prop :=
  ∃ ref, e = Some ref ∧ ¬ (index.Url ref = url ∧ index.Rev ref = rev).

(** What a reload knows about one name. *)
Definition reload_at (name : string) (d : main.reload)
  : option config.Repo * option config.Repo * option string :=
  (main.cfg_Repos d !! name, main.cfgn_Repos d !! name, main.deleted d !! name).

(** The number a string of lower-case hexadecimal digits stands for. *)
Fixpoint hex_value (s : string) : Z :=
  match s with
  | EmptyString => 0
  | String c rest =>
      Index "0123456789abcdef" c * 16 ^ Z.of_nat (String.length rest) + hex_value rest
  end.

End notions.

(** ** The specification's reading of three operations *)

Module claimed.
Import golib searcher api.

(** The selection the specification describes for [*] and for the empty
    parameter: the names of the repositories that are not hidden. *)
Definition selects_non_hidden {sched : Sched} (v : string)
    (idx : gmap string Searcher) : Prop :=
  ∃ repos vrepos,
    parseAsRepoList v idx = Ok (repos, vrepos) ∧
    ∀ name, name ∈ repos ↔ ∃ s, idx !! name = Some s ∧ IsHidden s = Ok false.

(** The limit the specification describes for a selection of more than
    one repository: the smaller of the limit of the request and 5. *)
Definition limit_is_capped (r : Request) (repos : list string) : Prop :=
  index.Limit (searchOptions r repos)
  = Z.min (snd (parseRangeValue (FormValue r "rng"))) defaultFilesOpened.

(** The found set the specification describes: the references of the
    directories that could be read, the others discarded. *)
Definition readable_refs {sys : Env} (dirs : list string) (w : World)
  : list (option index.IndexRef) :=
  (filter (λ rd, rd.2 = None) (map (λ dir, index_Read dir w) dirs)).*1.

Definition found_only_readable {sys : Env} (dbpath : string) (w : World) : Prop :=
  ∀ dirs found,
    filepath_Glob (filepath_Join [dbpath; "idx-*"]) w = inl dirs →
    findExistingRefs dbpath w = inl found →
    refs found = readable_refs dirs w.

End claimed.

(** * Properties *)

Import golib searcher api.

(** ** Numbers read from form values *)

Section golib_facts.

Lemma parseUint_loop_range maxVal s : ∀ n v,
  0 ≤ n ≤ maxVal →
  parseUint_loop maxVal n s = (v, None) → 0 ≤ v ≤ maxVal.
Proof.
  induction s as [|c rest IH]; intros n v Hn; simpl.
  - intros [= <-]. exact Hn.
  - destruct (decimal_digit c) as [d|] eqn:Hd; [|discriminate].
    destruct (cutoff <=? n); [discriminate|].
    destruct ((to_uint (n * 10 + d) <? n * 10) || (maxVal <? to_uint (n * 10 + d))) eqn:Hc;
      [discriminate|].
    apply orb_false_iff in Hc as [_ Hc]. apply Z.ltb_ge in Hc.
    apply IH. split; [|exact Hc].
    unfold to_uint. apply Z.mod_pos_bound. lia.
Qed.

Lemma ParseUint_range s bitSize v :
  0 ≤ bitSize → ParseUint s bitSize = (v, None) → 0 ≤ v < 2 ^ bitSize.
Proof.
  intros Hb. unfold ParseUint. destruct s as [|c rest]; [discriminate|].
  intros H. apply parseUint_loop_range in H.
  - lia.
  - assert (0 < 2 ^ bitSize) by (apply Z.pow_pos_nonneg; lia). lia.
Qed.

Lemma to_uint_parsed s v : ParseUint s 54 = (v, None) → to_uint v = v.
Proof.
  intros H. apply ParseUint_range in H; [|lia].
  unfold to_uint. apply Z.mod_small.
  assert (2 ^ 54 < 2 ^ 64) by (apply Z.pow_lt_mono_r; lia). lia.
Qed.

End golib_facts.

(** C8. With a nonzero [min], a parsed value below [min] makes
    [parseAsUintValue] return [max], not [min]; a parsed value of at
    least [min] is treated as without a lower bound: capped at a nonzero
    [max], returned as it is otherwise. *)
Theorem parseAsUintValue_below_min (sv : string) (min max def iv : Z) :
  min ≠ 0 →
  ParseUint sv 54 = (iv, None) →
  (iv < min → parseAsUintValue sv min max def = max) ∧
  (min ≤ iv →
   parseAsUintValue sv min max def
   = if negb (max =? 0) && (max <? iv) then max else iv).
Proof.
  intros Hmin Hp. unfold parseAsUintValue. rewrite Hp.
  rewrite (to_uint_parsed _ _ Hp).
  apply Z.eqb_neq in Hmin. rewrite Hmin. simpl negb at 2. split; intros Hlt.
  - destruct (negb (max =? 0) && (max <? iv)); [reflexivity|].
    apply Z.ltb_lt in Hlt. rewrite Hlt. reflexivity.
  - destruct (negb (max =? 0) && (max <? iv)); [reflexivity|].
    apply Z.ltb_ge in Hlt. rewrite Hlt. reflexivity.
Qed.

Lemma parseAsUintValue_below_min_witness :
  (5 ≠ 0 ∧ ParseUint "3" 54 = (3, None))
  ∧ parseAsUintValue "3" 5 10 2 = 10
  ∧ parseAsUintValue "7" 5 10 2 = 7.
Proof.
  split; [split; [lia | reflexivity]|].
  split.
  - apply (parseAsUintValue_below_min "3" 5 10 2 3); [lia | reflexivity | lia].
  - apply (parseAsUintValue_below_min "7" 5 10 2 7); [lia | reflexivity | lia].
Defined.

(** C7. The lines of context of a search request are within [0, 20]: 2
    when the [ctx] value does not parse, 20 when it parses to more than
    20, the parsed value otherwise; an absent [ctx] gives 2. *)
Theorem lines_of_context_clamped (r : Request) (repos : list string) :
  let loc := index.LinesOfContext (searchOptions r repos) in
  0 ≤ loc ≤ 20
  ∧ loc = match ParseUint (FormValue r "ctx") 54 with
          | (_, Some _) => 2
          | (iv, None) => if 20 <? iv then 20 else iv
          end
  ∧ index.LinesOfContext
      (searchOptions {| Method := Method r; Form := delete "ctx" (Form r) |} repos)
    = 2.
Proof.
  assert (Hloc : ∀ r', index.LinesOfContext (searchOptions r' repos)
                 = parseAsUintValue (FormValue r' "ctx") 0 20 2).
  { intros r'. unfold searchOptions.
    destruct (parseRangeValue _) as [o l].
    destruct (1 <? length repos)%nat; reflexivity. }
  cbv zeta. rewrite !Hloc. unfold parseAsUintValue.
  split; [|split].
  - destruct (ParseUint (FormValue r "ctx") 54) as [iv [e|]] eqn:Hp; [lia|].
    rewrite (to_uint_parsed _ _ Hp). simpl.
    apply ParseUint_range in Hp; [|lia].
    destruct (20 <? iv) eqn:Hc; [lia|]. apply Z.ltb_ge in Hc. lia.
  - destruct (ParseUint (FormValue r "ctx") 54) as [iv [e|]] eqn:Hp; [reflexivity|].
    rewrite (to_uint_parsed _ _ Hp). simpl.
    destruct (20 <? iv); reflexivity.
  - unfold FormValue. simpl. rewrite lookup_delete_eq. reflexivity.
Qed.

(** ** Repository selection *)

Section selection.
Context {sched : Sched}.

Lemma range_keys {V} (m : gmap string V) : (range m).*1 ≡ₚ (map_to_list m).*1.
Proof. apply fmap_Permutation, range_perm. Qed.

Lemma range_keys_NoDup {V} (m : gmap string V) : NoDup (range m).*1.
Proof. rewrite range_keys. apply NoDup_fst_map_to_list. Qed.

Lemma elem_of_range {V} (m : gmap string V) k v :
  (k, v) ∈ range m ↔ m !! k = Some v.
Proof. rewrite range_perm. apply elem_of_map_to_list. Qed.

Lemma elem_of_range_keys {V} (m : gmap string V) k :
  k ∈ (range m).*1 ↔ is_Some (m !! k).
Proof.
  rewrite list_elem_of_fmap. split.
  - intros [[k' v] [-> Hin]]. apply elem_of_range in Hin. eauto.
  - intros [v Hv]. exists (k, v). split; [reflexivity|]. by apply elem_of_range.
Qed.

(** Appending the keys one by one, as the [range] loops do. *)
Lemma append_keys {V} (l : list (string * V)) (acc : list string) :
  foldl (λ repos '(repo, _), repos ++ [repo]) acc l = acc ++ l.*1.
Proof.
  revert acc. induction l as [|[k v] l IH]; intros acc; simpl.
  - by rewrite app_nil_r.
  - rewrite IH. by rewrite <- app_assoc.
Qed.

Lemma parseAsRepoList_wildcard (v : string) (idx : gmap string Searcher) :
  TrimSpace v = "*"%string ∨ TrimSpace v = ""%string →
  parseAsRepoList v idx = Ok ((range idx).*1, []).
Proof.
  intros Hv. unfold parseAsRepoList. cbv zeta.
  destruct Hv as [-> | ->]; simpl; by rewrite append_keys.
Qed.

End selection.

(** C1, as stated, fails: with the hidden repository [H] in the map, [*]
    selects [H]. *)
Lemma wildcard_selects_hidden :
  parseAsRepoList (sched := in_order) "*" {[ "H"%string := example.sH ]} = Ok (["H"%string], [])
  ∧ IsHidden example.sH = Ok true
  ∧ ¬ claimed.selects_non_hidden (sched := in_order) "*" {[ "H"%string := example.sH ]}.
Proof.
  assert (Hrun : parseAsRepoList (sched := in_order) "*" {[ "H"%string := example.sH ]}
                 = Ok (["H"%string], [])) by (vm_compute; reflexivity).
  split; [exact Hrun|]. split; [reflexivity|].
  intros (repos & vrepos & Hsel & Hin). rewrite Hrun in Hsel.
  injection Hsel as <- <-.
  destruct (proj1 (Hin "H"%string)) as (s & Hs & Hhid).
  - apply list_elem_of_singleton. reflexivity.
  - rewrite lookup_singleton_eq in Hs. injection Hs as <-. discriminate Hhid.
Qed.

(** C1, amended. For [*] and for the empty parameter [parseAsRepoList]
    selects the name of every repository of the map, hidden or not, each
    once, and no virtual selector. *)
Theorem parseAsRepoList_all {sched : Sched} (v : string) (idx : gmap string Searcher) :
  v = "*"%string ∨ v = ""%string →
  ∃ repos,
    parseAsRepoList v idx = Ok (repos, [])
    ∧ NoDup repos
    ∧ ∀ name, name ∈ repos ↔ is_Some (idx !! name).
Proof.
  intros Hv. exists (range idx).*1. split; [|split].
  - apply parseAsRepoList_wildcard. destruct Hv as [-> | ->]; [left|right]; reflexivity.
  - apply range_keys_NoDup.
  - intros name. apply elem_of_range_keys.
Qed.

Lemma parseAsRepoList_all_witness :
  ("*"%string = "*"%string ∨ "*"%string = ""%string)
  ∧ ∃ repos,
      parseAsRepoList (sched := in_order) "*"
        {[ "H"%string := example.sH; "A"%string := example.sA ]} = Ok (repos, [])
      ∧ NoDup repos
      ∧ ∀ name, name ∈ repos
          ↔ is_Some (({[ "H"%string := example.sH; "A"%string := example.sA ]}
                       : gmap string Searcher) !! name).
Proof.
  split; [left; reflexivity|].
  apply (parseAsRepoList_all (sched := in_order) "*"
           {[ "H"%string := example.sH; "A"%string := example.sA ]}).
  left; reflexivity.
Defined.

(** ** The options of a search *)

(** C3, as stated, fails: a request for the range [0:3] over the two
    repositories [A] and [B] searches each with the limit 5. *)
Lemma limit_not_capped :
  let r := example.GET [("repos", "A,B"); ("rng", "0:3"); ("q", "hello")]%string in
  let idx : gmap string Searcher :=
    {[ "A"%string := example.sA; "B"%string := example.sB ]} in
  parseAsRepoList (sched := in_order) (FormValue r "repos") idx = Ok (["A"; "B"]%string, [])
  ∧ snd (parseRangeValue (FormValue r "rng")) = 3
  ∧ index.Limit (searchOptions r ["A"; "B"]%string) = 5
  ∧ ¬ claimed.limit_is_capped r ["A"; "B"]%string.
Proof.
  cbv zeta. split; [vm_compute; reflexivity|].
  split; [vm_compute; reflexivity|].
  split; [vm_compute; reflexivity|].
  unfold claimed.limit_is_capped. vm_compute. discriminate.
Qed.

(** C3, amended. When more than one repository is selected, each is
    searched with the limit 5, whatever limit the request asks for. *)
Theorem limit_many_repos (r : Request) (repos : list string) :
  (1 < length repos)%nat →
  index.Limit (searchOptions r repos) = 5.
Proof.
  intros Hlen. unfold searchOptions.
  destruct (parseRangeValue _) as [o l].
  apply Nat.ltb_lt in Hlen. rewrite Hlen. reflexivity.
Qed.

Lemma limit_many_repos_witness :
  (1 < length ["A"; "B"]%string)%nat
  ∧ index.Limit
      (searchOptions (example.GET [("rng", "0:3")]%string) ["A"; "B"]%string) = 5.
Proof.
  split; [simpl; lia|].
  apply (limit_many_repos (example.GET [("rng", "0:3")]%string) ["A"; "B"]%string).
  simpl; lia.
Defined.

(** With at most one repository selected the limit is the one of the
    request. *)
Lemma limit_one_repo (r : Request) (repos : list string) :
  (length repos ≤ 1)%nat →
  index.Limit (searchOptions r repos) = snd (parseRangeValue (FormValue r "rng")).
Proof.
  intros Hlen. unfold searchOptions.
  destruct (parseRangeValue _) as [o l].
  apply Nat.ltb_ge in Hlen. rewrite Hlen. reflexivity.
Qed.

(** ** The update endpoint *)

Section update.
Context {sched : Sched} {sys : Env}.

#[local] Abbreviation in_map idx :=
  (λ repo : string, is_Some ((idx : gmap string Searcher) !! repo)).

Lemma named_loop_in_map (idx : gmap string Searcher) (names : list string) :
  ∀ use repos vrepos use' repos' vrepos',
    Forall (in_map idx) repos →
    foldl (λ '(use, repos, vrepos) repo,
             match idx !! repo with
             | None => (true, repos, vrepos ++ [repo])
             | Some _ => (use, repos ++ [repo], vrepos)
             end)
          (use, repos, vrepos) names = (use', repos', vrepos') →
    Forall (in_map idx) repos'.
Proof.
  induction names as [|n names IH]; intros use repos vrepos use' repos' vrepos' Hall; simpl.
  - intros [= _ <- _]. exact Hall.
  - destruct (idx !! n) as [s|] eqn:Hn; apply IH; [|exact Hall].
    apply Forall_app. split; [exact Hall|]. apply Forall_singleton. by rewrite Hn.
Qed.

Lemma add_hidden_in_map (idx : gmap string Searcher) (l : list (string * Searcher)) :
  ∀ repos repos',
    Forall (λ e, is_Some (idx !! e.1)) l →
    Forall (in_map idx) repos →
    add_hidden l repos = Ok repos' →
    Forall (in_map idx) repos'.
Proof.
  induction l as [|[k s] l IH]; intros repos repos' Hl Hall; simpl.
  - intros [= <-]. exact Hall.
  - apply Forall_cons in Hl as [Hk Hl].
    destruct (IsHidden s) as [[|]|]; simpl; [| |discriminate]; apply IH; auto.
    apply Forall_app. split; [exact Hall|]. by apply Forall_singleton.
Qed.

(** Every repository that [parseAsRepoList] selects is in the map: a
    name that is not is moved to the virtual selectors. *)
Lemma parseAsRepoList_in_map (v : string) (idx : gmap string Searcher) repos vrepos :
  parseAsRepoList v idx = Ok (repos, vrepos) → Forall (in_map idx) repos.
Proof.
  unfold parseAsRepoList. cbv zeta.
  destruct (String.eqb (TrimSpace v) "*" || String.eqb (TrimSpace v) "").
  - intros [= <- _]. rewrite append_keys. simpl.
    apply Forall_forall. intros k Hk. by apply elem_of_range_keys.
  - destruct (foldl _ _ (Split (TrimSpace v) ",")) as [[use named] vs] eqn:Hloop.
    apply named_loop_in_map in Hloop; [|constructor].
    destruct use; simpl.
    + destruct (add_hidden (range idx) named) as [repos'|] eqn:Hadd; simpl; [|discriminate].
      intros [= <- _]. eapply add_hidden_in_map; [|exact Hloop|exact Hadd].
      apply Forall_forall. intros [k s] Hin. simpl.
      apply elem_of_range in Hin. by rewrite Hin.
    + intros [= <- _]. exact Hloop.
Qed.

Lemma update_loop_not_404 (repos : list string) (now : Z) :
  ∀ gSearchers : gmap string Searcher,
    Forall (in_map gSearchers) repos →
    Status (update_loop repos now gSearchers).1 ≠ StatusNotFound.
Proof.
  induction repos as [|repo rest IH]; intros gs Hall; simpl.
  - discriminate.
  - apply Forall_cons in Hall as [[s Hs] Hrest]. rewrite Hs.
    destruct (Update now s) as [ok s'].
    destruct ok; simpl; [|discriminate].
    apply IH. eapply Forall_impl; [exact Hrest|].
    intros r [x Hx]. simpl.
    destruct (decide (repo = r)) as [->|Hne].
    + rewrite lookup_insert_eq. eauto.
    + rewrite lookup_insert_ne by done. eauto.
Qed.

Lemma Update_Repo (now : Z) (s : Searcher) : Repo (Update now s).2 = Repo s.
Proof.
  unfold Update. destruct (Repo s) as [repo|] eqn:Hrepo; [|exact Hrepo].
  destruct (negb (config.PushUpdatesEnabled repo)); [exact Hrepo|].
  destruct (try_send _ _ _); exact Hrepo.
Qed.

Lemma Update_refuses (now : Z) (s : Searcher) :
  (Update now s).1
  = match Repo s with
    | Some r => config.PushUpdatesEnabled r
    | None => true
    end.
Proof.
  unfold Update. destruct (Repo s) as [repo|]; [|reflexivity].
  destruct (config.PushUpdatesEnabled repo); simpl; [|reflexivity].
  by destruct (try_send _ _ _).
Qed.

(** The answer of the loop over selected repositories that are all in
    the map: 403 for the first one that refuses push updates, ["ok"] when
    none does. *)
Lemma update_loop_answer (repos : list string) (now : Z) :
  ∀ gSearchers : gmap string Searcher,
    Forall (in_map gSearchers) repos →
    (update_loop repos now gSearchers).1
    = match List.find (push_off gSearchers) repos with
      | Some repo =>
          writeError ("Push updates are not enabled for repository " +:+ repo)
            StatusForbidden
      | None => writeResp (StringBody "ok")
      end.
Proof.
  induction repos as [|repo rest IH]; intros gs Hall; simpl; [reflexivity|].
  apply Forall_cons in Hall as [[s Hs] Hrest].
  unfold push_off at 1. rewrite Hs. simpl.
  pose proof (Update_refuses now s) as Hok.
  pose proof (Update_Repo now s) as Hrepo.
  destruct (Update now s) as [ok s']. simpl in Hok, Hrepo.
  assert (Hsame : ∀ r, push_off (<[repo := s']> gs) r = push_off gs r).
  { intros r. unfold push_off. destruct (decide (repo = r)) as [<-|Hne].
    - rewrite lookup_insert_eq, Hs. simpl. by rewrite Hrepo.
    - by rewrite lookup_insert_ne. }
  destruct (Repo s) as [r|]; subst ok.
  - destruct (config.PushUpdatesEnabled r); simpl; [|reflexivity].
    rewrite IH.
    + clear IH Hrest. induction rest as [|x rest IHrest]; simpl; [reflexivity|].
      rewrite Hsame. destruct (push_off gs x); [reflexivity | exact IHrest].
    + eapply Forall_impl; [exact Hrest|]. intros x [y Hy]. simpl.
      destruct (decide (repo = x)) as [->|Hne].
      * rewrite lookup_insert_eq. eauto.
      * rewrite lookup_insert_ne by done. eauto.
  - simpl. rewrite IH.
    + clear IH Hrest. induction rest as [|x rest IHrest]; simpl; [reflexivity|].
      rewrite Hsame. destruct (push_off gs x); [reflexivity | exact IHrest].
    + eapply Forall_impl; [exact Hrest|]. intros x [y Hy]. simpl.
      destruct (decide (repo = x)) as [->|Hne].
      * rewrite lookup_insert_eq. eauto.
      * rewrite lookup_insert_ne by done. eauto.
Qed.

(** The answers of the update handler to a POST, once the server is
    ready and the selection is made: 403 when a selected repository
    refuses push updates, ["ok"] otherwise.  These are the two parts of
    the specification's sentence that hold. *)
Lemma handle_update_answer (r : Request) (now : Z) (w : World)
    (m : gmap string Searcher) (repos vrepos : list string) :
  checkReady (Some m) = None →
  Method r = "POST"%string →
  parseAsRepoList (FormValue r "repos") m = Ok (repos, vrepos) →
  ∃ m',
    handle_update r now w (Some m)
    = Ok (match List.find (push_off m) repos with
          | Some repo =>
              writeError ("Push updates are not enabled for repository " +:+ repo)
                StatusForbidden
          | None => writeResp (StringBody "ok")
          end, Some m').
Proof.
  intros Hready Hpost Hsel. unfold handle_update.
  rewrite Hready, Hpost. simpl. rewrite Hsel. simpl.
  pose proof (update_loop_answer repos now m (parseAsRepoList_in_map _ _ _ _ Hsel)) as Hans.
  destruct (update_loop repos now m) as [resp m']. simpl in Hans. subst resp.
  by exists m'.
Qed.

(** The update handler never answers 404: the names it looks up are the
    ones [parseAsRepoList] found in the map. *)
Lemma handle_update_not_404 (r : Request) (now : Z) (w : World)
    (gSearchers gSearchers' : option (gmap string Searcher)) (resp : Response) :
  handle_update r now w gSearchers = Ok (resp, gSearchers') →
  Status resp ≠ StatusNotFound.
Proof.
  unfold handle_update.
  destruct (checkReady gSearchers) as [notReady|] eqn:Hready.
  - intros [= <- _]. unfold checkReady in Hready.
    destruct (_ && _); [discriminate|]. injection Hready as <-. discriminate.
  - destruct (negb (String.eqb (Method r) "POST")).
    + intros [= <- _]. discriminate.
    + destruct (parseAsRepoList _ _) as [[repos vrepos]|] eqn:Hsel; simpl; [|discriminate].
      apply parseAsRepoList_in_map in Hsel.
      pose proof (update_loop_not_404 repos now _ Hsel) as Hst.
      destruct (update_loop repos now _) as [resp' gs']. intros [= <- _]. exact Hst.
Qed.

End update.

(** C2, the part that fails: a POST that names a repository the map does
    not have is answered 200 with ["ok"], not 404; the name is taken for
    a virtual selector and never looked up. *)
Theorem update_unknown_repository :
  let gSearchers : option (gmap string Searcher) :=
    Some {[ "A"%string := example.sA ]} in
  parseAsRepoList (sched := in_order) "nosuch" {[ "A"%string := example.sA ]}
    = Ok ([], ["nosuch"%string])
  ∧ handle_update (sched := in_order) (sys := example.env)
      (example.POST [("repos", "nosuch")]%string) 0 example.no_dirs gSearchers
    = Ok ({| Status := 200; Body := StringBody "ok" |}, gSearchers).
Proof.
  cbv zeta. split; vm_compute; reflexivity.
Qed.

(** ** Readiness *)

Section readiness.
Context {sched : Sched} {sys : Env}.

Lemma checkReady_nil : checkReady None = Some notReady.
Proof. reflexivity. Qed.

Lemma checkReady_empty : checkReady (Some ∅) = Some notReady.
Proof. reflexivity. Qed.

Lemma checkReady_iff (gSearchers : option (gmap string Searcher)) :
  checkReady gSearchers = None ↔ ∃ m, gSearchers = Some m ∧ m ≠ ∅.
Proof.
  unfold checkReady, len_map. destruct gSearchers as [m|]; simpl.
  - destruct (decide (m = ∅)) as [->|Hne].
    + rewrite map_size_empty. simpl. split; [discriminate|].
      intros (m & [= <-] & Hm). done.
    + assert (size m ≠ 0%nat) by (by intros ?%map_size_empty_inv).
      destruct (Z.of_nat (size m) <=? 0) eqn:Hle; [apply Z.leb_le in Hle; lia|].
      simpl. split; [|done]. intros _. by exists m.
  - split; [discriminate|]. intros (m & Hm & _). discriminate.
Qed.

(** Every route starts with [checkReady]. *)
Lemma not_ready_route (gSearchers : option (gmap string Searcher)) (resp : Response) :
  checkReady gSearchers = Some resp →
  ∀ route h, (route, h) ∈ Setup →
  ∀ r now w, h r now w gSearchers = Ok (resp, gSearchers).
Proof.
  intros Hready route h Hin r now w. unfold Setup in Hin.
  repeat (apply elem_of_cons in Hin as [[= _ ->]|Hin]);
    [| | | |by apply elem_of_nil in Hin];
    unfold handle_repos, handle_search, handle_excludes, handle_update;
    by rewrite Hready.
Qed.

(** When every result is an error the live map that [MakeAll] collects
    is empty (and not nil). *)
Lemma collect_failed (results : list searcherResult) :
  Forall (λ r, ∃ err, result r = inr err) results → (collect results).1 = ∅.
Proof.
  unfold collect. generalize (∅ : gmap string error).
  induction results as [|r rs IH]; intros errs Hall; simpl; [reflexivity|].
  apply Forall_cons in Hall as [Hr Hrs].
  destruct Hr as [err ->]. by apply IH.
Qed.

End readiness.

(** C10. A nil map and an empty map are both "not ready", and so is the
    map published after every repository failed to build: every route
    then answers every request with the error "Server is not ready,
    please wait..." and the status 200, and changes nothing. *)
Theorem not_ready_every_endpoint {sched : Sched} {sys : Env}
    (gSearchers : option (gmap string Searcher)) (results : list searcherResult) :
  gSearchers = None
  ∨ gSearchers = Some ∅
  ∨ (Forall (λ r, ∃ err, result r = inr err) results
     ∧ gSearchers = SetSearchers (Some (collect results).1)) →
  checkReady gSearchers
  = Some {| Status := 200; Body := ErrorBody "Server is not ready, please wait..." |}
  ∧ ∀ route h, (route, h) ∈ Setup →
    ∀ r now w,
      h r now w gSearchers
      = Ok ({| Status := 200; Body := ErrorBody "Server is not ready, please wait..." |},
            gSearchers).
Proof.
  intros Hgs.
  assert (Hready : checkReady gSearchers = Some notReady).
  { destruct Hgs as [-> | [-> | [Hall ->]]].
    - apply checkReady_nil.
    - apply checkReady_empty.
    - unfold SetSearchers. rewrite (collect_failed _ Hall). apply checkReady_empty. }
  split; [exact Hready|].
  intros route h Hin r now w. exact (not_ready_route _ _ Hready route h Hin r now w).
Qed.

Lemma not_ready_every_endpoint_witness :
  let results := [ {| name := "A"; result := inr "Location file:///tmp/A not found."%string |} ] in
  let gSearchers := SetSearchers (Some (collect results).1) in
  (gSearchers = None
   ∨ gSearchers = Some ∅
   ∨ (Forall (λ r, ∃ err, result r = inr err) results
      ∧ gSearchers = SetSearchers (Some (collect results).1)))
  ∧ handle_search (sched := in_order) (sys := example.env)
      (example.GET [("q", "hello")]%string) 0 example.no_dirs gSearchers
    = Ok ({| Status := 200; Body := ErrorBody "Server is not ready, please wait..." |},
          gSearchers).
Proof.
  cbv zeta.
  assert (Hhyp : Forall (λ r, ∃ err, result r = inr err)
                   [ {| name := "A"; result := inr "Location file:///tmp/A not found."%string |} ]).
  { apply Forall_singleton. eexists. reflexivity. }
  split.
  - right; right. split; [exact Hhyp | reflexivity].
  - refine (proj2 (not_ready_every_endpoint (sched := in_order) (sys := example.env)
                     _ _ (or_intror (or_intror (conj Hhyp eq_refl))))
                  "/api/v1/search"%string handle_search _ _ _ _).
    unfold Setup. apply elem_of_cons. right. apply elem_of_cons. left. reflexivity.
Defined.

(** ** Fan-out and aggregation *)

Section fan_out.
Context {sched : Sched} {sys : Env}.

(** The results sent: one per selected repository that is in the map,
    in the order of the selection. *)
Lemma launch_sent query opts (repos vrepos : list string)
    (idx : gmap string Searcher) (w : World) :
  launch query opts repos vrepos idx w
  = omap (λ repo, (λ s, (repo, idx_Search (searcher.idx s) query opts vrepos w))
                    <$> idx !! repo) repos.
Proof.
  unfold launch.
  enough (Hgen : ∀ sent,
    foldl (λ sent repo,
             match idx !! repo with
             | None => sent
             | Some s => sent ++ [(repo, idx_Search (searcher.idx s) query opts vrepos w)]
             end) sent repos
    = sent ++ omap (λ repo, (λ s, (repo, idx_Search (searcher.idx s) query opts vrepos w))
                              <$> idx !! repo) repos)
    by apply Hgen.
  induction repos as [|repo rest IH]; intros sent; simpl.
  - by rewrite app_nil_r.
  - rewrite IH. destruct (idx !! repo) as [s|]; simpl; [|reflexivity].
    by rewrite <- app_assoc.
Qed.

Lemma failed_search_sent query opts (repos vrepos : list string)
    (idx : gmap string Searcher) (w : World) repo s err :
  repo ∈ repos → idx !! repo = Some s →
  idx_Search (searcher.idx s) query opts vrepos w = inr err →
  (repo, inr err) ∈ arrival (launch query opts repos vrepos idx w).
Proof.
  intros Hin Hs Herr. rewrite arrival_perm, launch_sent.
  apply list_elem_of_omap. exists repo. split; [exact Hin|].
  rewrite Hs. simpl. by rewrite Herr.
Qed.

(** The receiving loop returns at the first error it receives, with no
    map of results. *)
Lemma receive_first_error (received : list searchResponse) :
  ∀ res filesOpened repo err0,
    (repo, inr err0) ∈ received →
    ∃ before r err after filesOpened',
      received = before ++ (r, inr err) :: after
      ∧ Forall (λ x, ∃ resp, x.2 = inl resp) before
      ∧ receive received res filesOpened = ((None, Some err), filesOpened').
Proof.
  induction received as [|[r [resp|err]] rest IH]; intros res fo repo err0 Hin.
  - by apply elem_of_nil in Hin.
  - apply elem_of_cons in Hin as [[=]|Hin].
    assert (Hstep : ∃ res' fo', receive ((r, inl resp) :: rest) res fo
                                = receive rest res' fo').
    { simpl. destruct (index.Matches resp), (index.VMatches resp); eauto. }
    destruct Hstep as (res' & fo' & Hstep).
    destruct (IH res' fo' repo err0 Hin) as (before & r' & err & after & fo'' & -> & Hok & Hrun).
    exists ((r, inl resp) :: before), r', err, after, fo''.
    split; [reflexivity|]. split; [|exact (eq_trans Hstep Hrun)].
    constructor; [by exists resp | exact Hok].
  - exists [], r, err, rest, fo. split; [reflexivity|]. split; [constructor | reflexivity].
Qed.

Lemma searchAll_first_error query opts (repos vrepos : list string)
    (idx : gmap string Searcher) (filesOpened duration : Z) (w : World) repo s err0 :
  repo ∈ repos → idx !! repo = Some s →
  idx_Search (searcher.idx s) query opts vrepos w = inr err0 →
  ∃ before r err after filesOpened',
    arrival (launch query opts repos vrepos idx w) = before ++ (r, inr err) :: after
    ∧ Forall (λ x, ∃ resp, x.2 = inl resp) before
    ∧ searchAll query opts repos vrepos idx filesOpened duration w
      = ((None, Some err), filesOpened', duration).
Proof.
  intros Hin Hs Herr.
  pose proof (failed_search_sent _ _ _ _ _ _ _ _ _ Hin Hs Herr) as Hsent.
  destruct (receive_first_error _ ∅ filesOpened _ _ Hsent)
    as (before & r & err & after & fo' & Harr & Hok & Hrun).
  exists before, r, err, after, fo'. split; [exact Harr|]. split; [exact Hok|].
  unfold searchAll. cbv zeta. by rewrite Hrun.
Qed.

End fan_out.

(** C9. When the search of a selected repository fails, [searchAll]
    returns no results and the first error in the order in which the
    results are received (every result received before it was a success
    and is dropped), and the search handler answers with that error
    alone, at status 200. *)
Theorem search_error_discards_results {sched : Sched} {sys : Env}
    (req : Request) (now : Z) (w : World)
    (gSearchers : option (gmap string Searcher))
    (repos vrepos : list string) (repo : string) (s : Searcher) (err0 : error) :
  let idx := default ∅ gSearchers in
  let query := TrimSpace (FormValue req "q") in
  let opts := searchOptions req repos in
  checkReady gSearchers = None →
  parseAsRepoList (FormValue req "repos") idx = Ok (repos, vrepos) →
  query ≠ ""%string →
  repo ∈ repos →
  idx !! repo = Some s →
  idx_Search (searcher.idx s) query opts vrepos w = inr err0 →
  ∃ before r err after filesOpened,
    arrival (launch query opts repos vrepos idx w) = before ++ (r, inr err) :: after
    ∧ Forall (λ x, ∃ resp, x.2 = inl resp) before
    ∧ searchAll query opts repos vrepos idx 0 0 w = ((None, Some err), filesOpened, 0)
    ∧ handle_search req now w gSearchers
      = Ok ({| Status := 200; Body := ErrorBody err |}, gSearchers).
Proof.
  intros idx query opts Hready Hsel Hquery Hin Hs Herr.
  destruct (searchAll_first_error query opts repos vrepos idx 0 0 w repo s err0 Hin Hs Herr)
    as (before & r & err & after & fo & Harr & Hok & Hrun).
  exists before, r, err, after, fo.
  split; [exact Harr|]. split; [exact Hok|]. split; [exact Hrun|].
  unfold handle_search. rewrite Hready.
  fold idx. rewrite Hsel. simpl. fold query. fold opts.
  destruct (Z.of_nat (String.length query) <=? 0) eqn:Hlen.
  - apply Z.leb_le in Hlen. destruct query; [done | simpl in Hlen; lia].
  - rewrite Hrun. reflexivity.
Qed.

Lemma search_error_discards_results_witness :
  let req := example.GET [("repos", "A,B"); ("q", "(")]%string in
  let gSearchers : option (gmap string Searcher) :=
    Some {[ "A"%string := example.sA; "B"%string := example.sB ]} in
  let err := "error parsing regexp: missing closing ): `(`"%string in
  (checkReady gSearchers = None
   ∧ parseAsRepoList (sched := in_order) (FormValue req "repos") (default ∅ gSearchers)
     = Ok (["A"; "B"]%string, [])
   ∧ TrimSpace (FormValue req "q") ≠ ""%string
   ∧ "A"%string ∈ ["A"; "B"]%string
   ∧ default ∅ gSearchers !! "A"%string = Some example.sA
   ∧ idx_Search (Env := example.env) (searcher.idx example.sA)
       (TrimSpace (FormValue req "q")) (searchOptions req ["A"; "B"]%string) []
       example.no_dirs = inr err)
  ∧ ∃ err',
      handle_search (sched := in_order) (sys := example.env) req 0 example.no_dirs
        gSearchers
      = Ok ({| Status := 200; Body := ErrorBody err' |}, gSearchers).
Proof.
  cbv zeta.
  assert (H1 : checkReady (Some ({[ "A"%string := example.sA; "B"%string := example.sB ]}
                                   : gmap string Searcher)) = None)
    by (vm_compute; reflexivity).
  assert (H2 : parseAsRepoList (sched := in_order)
                 (FormValue (example.GET [("repos", "A,B"); ("q", "(")]%string) "repos")
                 (default ∅ (Some ({[ "A"%string := example.sA; "B"%string := example.sB ]}
                                     : gmap string Searcher)))
               = Ok (["A"; "B"]%string, []))
    by (vm_compute; reflexivity).
  assert (H3 : TrimSpace (FormValue (example.GET [("repos", "A,B"); ("q", "(")]%string) "q")
               ≠ ""%string)
    by (vm_compute; discriminate).
  assert (H4 : "A"%string ∈ ["A"; "B"]%string) by (apply elem_of_cons; left; reflexivity).
  assert (H5 : default ∅ (Some ({[ "A"%string := example.sA; "B"%string := example.sB ]}
                                  : gmap string Searcher)) !! "A"%string
               = Some example.sA)
    by (vm_compute; reflexivity).
  assert (H6 : idx_Search (Env := example.env) (searcher.idx example.sA)
                 (TrimSpace (FormValue (example.GET [("repos", "A,B"); ("q", "(")]%string) "q"))
                 (searchOptions (example.GET [("repos", "A,B"); ("q", "(")]%string)
                    ["A"; "B"]%string) [] example.no_dirs
               = inr "error parsing regexp: missing closing ): `(`"%string)
    by (vm_compute; reflexivity).
  split; [repeat split; assumption|].
  destruct (search_error_discards_results (sched := in_order) (sys := example.env)
              (example.GET [("repos", "A,B"); ("q", "(")]%string) 0 example.no_dirs
              (Some {[ "A"%string := example.sA; "B"%string := example.sB ]})
              ["A"; "B"]%string [] "A"%string example.sA _ H1 H2 H3 H4 H5 H6)
    as (before & r & err & after & fo & _ & _ & _ & Hresp).
  exists err. exact Hresp.
Defined.

(** ** The update mailbox *)

Section mailbox.

Lemma Update_step (s : Searcher) (repo : config.Repo) (now : Z) :
  Repo s = Some repo →
  Update now s
  = (config.PushUpdatesEnabled repo,
     if config.PushUpdatesEnabled repo then
       match updateCh s with
       | [] => set_updateCh [now] s
       | _ :: _ => s
       end
     else s).
Proof.
  intros Hrepo. unfold Update. rewrite Hrepo.
  destruct (config.PushUpdatesEnabled repo); simpl; [|reflexivity].
  unfold try_send, updateCh_cap. destruct (updateCh s) as [|t [|t' c]]; reflexivity.
Qed.

(** Once an event is pending, further calls leave the searcher as it
    is. *)
Lemma Update_pending (s : Searcher) (repo : config.Repo) (times : list Z) :
  Repo s = Some repo → updateCh s ≠ [] →
  foldl (λ s t, (Update t s).2) s times = s.
Proof.
  intros Hrepo Hfull. induction times as [|t times IH]; simpl; [reflexivity|].
  rewrite (Update_step s repo t Hrepo). simpl.
  destruct (config.PushUpdatesEnabled repo); [|exact IH].
  destruct (updateCh s); [done | exact IH].
Qed.

Lemma Update_disabled (s : Searcher) (repo : config.Repo) (times : list Z) :
  Repo s = Some repo → config.PushUpdatesEnabled repo = false →
  foldl (λ s t, (Update t s).2) s times = s.
Proof.
  intros Hrepo Hoff. induction times as [|t times IH]; simpl; [reflexivity|].
  rewrite (Update_step s repo t Hrepo), Hoff. exact IH.
Qed.

End mailbox.

(** C6. For a searcher with a descriptor, [Update] returns false exactly
    when push updates are disabled, and then changes nothing; otherwise
    it returns true and puts the time into the mailbox only if the
    mailbox is empty.  After any number of calls with no receive in
    between, the mailbox holds what it held before, or the time of the
    first call if it was empty and push updates are enabled: at most one
    event was added. *)
Theorem Update_coalesces (s : Searcher) (repo : config.Repo) (now : Z) (times : list Z) :
  Repo s = Some repo →
  let after := foldl (λ s t, (Update t s).2) s times in
  ((Update now s).1 = false ↔ config.PushUpdatesEnabled repo = false)
  ∧ (Update now s).2
    = (if config.PushUpdatesEnabled repo then
         match updateCh s with
         | [] => set_updateCh [now] s
         | _ :: _ => s
         end
       else s)
  ∧ after = set_updateCh (updateCh after) s
  ∧ updateCh after
    = match updateCh s, times with
      | [], t :: _ => if config.PushUpdatesEnabled repo then [t] else []
      | pending, _ => pending
      end
  ∧ (length (updateCh after) ≤ length (updateCh s) + 1)%nat.
Proof.
  intros Hrepo after.
  rewrite (Update_step s repo now Hrepo). simpl.
  split; [reflexivity|]. split; [reflexivity|].
  assert (Hsame : ∀ x : Searcher, x = set_updateCh (updateCh x) x) by (by intros []).
  subst after. destruct times as [|t rest].
  { simpl. split; [apply Hsame|]. split; [by destruct (updateCh s) | lia]. }
  destruct (config.PushUpdatesEnabled repo) eqn:Hpush.
  - simpl. rewrite (Update_step s repo t Hrepo), Hpush. simpl.
    destruct (updateCh s) as [|p c] eqn:Hch.
    + rewrite (Update_pending _ repo); [|exact Hrepo|discriminate].
      simpl. split; [reflexivity|]. split; [reflexivity | lia].
    + rewrite (Update_pending _ repo); [|exact Hrepo|by rewrite Hch].
      rewrite Hch. split; [rewrite <- Hch; apply Hsame|]. split; [reflexivity | lia].
  - rewrite (Update_disabled _ repo (t :: rest) Hrepo Hpush).
    split; [apply Hsame|]. split; [by destruct (updateCh s) | lia].
Qed.

Lemma Update_coalesces_witness :
  Repo example.sA = Some (example.repo_of "file:///tmp/A" (Some true) None)
  ∧ updateCh (foldl (λ s t, (Update t s).2) example.sA [10; 20; 30]) = [10]
  ∧ (Update 10 example.sA).1 = true
  ∧ (Update 10 example.sC).1 = false.
Proof.
  split; [reflexivity|].
  pose proof (Update_coalesces example.sA
                (example.repo_of "file:///tmp/A" (Some true) None) 10 [10; 20; 30]
                eq_refl) as (_ & _ & _ & Hbox & _).
  split; [exact Hbox|]. split; reflexivity.
Defined.

(** ** The refresh cycle *)

Section refresh.
Context {sys : Env}.

(** Waking up takes an event out of a mailbox and touches nothing else. *)
Lemma waitForUpdate_keeps (delay : Z) (ev : wake) (s s1 : Searcher) :
  waitForUpdate delay ev s = Some s1 →
  idx s1 = idx s ∧ Repo s1 = Repo s ∧ vrepos s1 = vrepos s
  ∧ shutdownRequested s1 = shutdownRequested s.
Proof.
  unfold waitForUpdate. destruct ev.
  - destruct (updateCh s); [discriminate|]. intros [= <-]. done.
  - destruct (0 <? delay); [|discriminate]. intros [= <-]. done.
  - destruct (shutdownCh s); [discriminate|]. intros [= <-]. done.
Qed.

Lemma updateAndReindex_pull_error (dbpath vcsDir name rev : string)
    (wd : WorkDir World) (opt : index.IndexOptions) (st : state)
    (repo : config.Repo) (err : error) (w' : World) :
  Repo (sr st) = Some repo →
  PullOrClone wd vcsDir (config.Url repo) (world st) = (inr err, w') →
  updateAndReindex dbpath vcsDir name rev wd opt st
  = Ok (rev, false,
        {| sr := sr st; world := w'; lim := lim st;
           log := log st ++ ["vcs pull error (" +:+ name +:+ " - " +:+ config.Url repo
                             +:+ "): " +:+ err] |}).
Proof.
  intros Hrepo Hpull. unfold updateAndReindex. cbv zeta.
  change (sr (Acquire st)) with (sr st).
  change (world (Acquire st)) with (world st).
  rewrite Hrepo, Hpull. reflexivity.
Qed.

End refresh.

(** C5. A round of the refresh loop in which the pull fails: the attempt
    returns the revision it was given and false, the searcher is the one
    that woke up (same index, same descriptor with the same revision,
    same virtual repositories), the limiter's token is back, the error
    is logged, and the loop goes on with the revision it had. *)
Theorem pull_error_keeps_searcher {sys : Env} (delay : Z) (ev : wake) (p : poller)
    (st : state) (s1 : Searcher) (repo : config.Repo) (err : error) (w' : World) :
  waitForUpdate delay ev (sr st) = Some s1 →
  shutdownRequested s1 = false →
  Repo s1 = Some repo →
  PullOrClone (p_wd p) (p_vcsDir p) (config.Url repo) (world st) = (inr err, w') →
  ∃ st',
    updateAndReindex (p_dbpath p) (p_vcsDir p) (p_name p) (p_rev p) (p_wd p) (p_opt p)
      (with_sr (λ _, s1) st) = Ok (p_rev p, false, st')
    ∧ cycle delay ev p st = Some (Ok (Continue, p, st'))
    ∧ sr st' = s1
    ∧ idx (sr st') = idx (sr st)
    ∧ Repo (sr st') = Repo (sr st)
    ∧ vrepos (sr st') = vrepos (sr st)
    ∧ lim st' = lim st
    ∧ world st' = w'
    ∧ log st' = log st ++ ["vcs pull error (" +:+ p_name p +:+ " - " +:+ config.Url repo
                           +:+ "): " +:+ err].
Proof.
  intros Hwake Hrun Hrepo Hpull.
  destruct (waitForUpdate_keeps _ _ _ _ Hwake) as (Hidx & Hre & Hvr & _).
  pose proof (updateAndReindex_pull_error (p_dbpath p) (p_vcsDir p) (p_name p) (p_rev p)
                (p_wd p) (p_opt p) (with_sr (λ _, s1) st) repo err w' Hrepo Hpull) as Hupd.
  eexists. split; [exact Hupd|].
  split.
  - unfold cycle. rewrite Hwake, Hrun, Hupd. reflexivity.
  - simpl. repeat split; assumption || reflexivity.
Qed.

Lemma pull_error_keeps_searcher_witness :
  (waitForUpdate 0 UpdateEvent (sr example.st_A) = Some example.sA
   ∧ shutdownRequested example.sA = false
   ∧ Repo example.sA = Some (example.repo_of "file:///tmp/A" (Some true) None)
   ∧ PullOrClone example.local_wd "/tmp/A" "file:///tmp/A" example.no_dirs
     = (inr "Location file:///tmp/A not found."%string, example.no_dirs))
  ∧ ∃ st',
      cycle (sys := example.env) 0 UpdateEvent example.poller_A example.st_A
      = Some (Ok (Continue, example.poller_A, st'))
      ∧ sr st' = example.sA.
Proof.
  split; [repeat split|].
  destruct (pull_error_keeps_searcher (sys := example.env) 0 UpdateEvent
              example.poller_A example.st_A example.sA
              (example.repo_of "file:///tmp/A" (Some true) None)
              "Location file:///tmp/A not found." example.no_dirs
              eq_refl eq_refl eq_refl eq_refl)
    as (st' & _ & Hcycle & Hsr & _).
  exists st'. split; [exact Hcycle | exact Hsr].
Defined.

(** ** The index references found at startup *)

Section found.
Context {sys : Env}.

Lemma read_each (w : World) (dirs : list string) :
  ∀ acc,
    foldl (λ refs dir, let '(r, _) := index_Read dir w in refs ++ [r]) acc dirs
    = acc ++ map (λ dir, (index_Read dir w).1) dirs.
Proof.
  induction dirs as [|dir dirs IH]; intros acc; simpl.
  - by rewrite app_nil_r.
  - destruct (index_Read dir w) as [r e] eqn:Hr. rewrite IH. simpl.
    by rewrite <- app_assoc.
Qed.

End found.

(** C4, as stated, fails: a directory whose manifest cannot be read
    still gets an entry in the found set, and [find] meets it. *)
Lemma unreadable_entry_is_found :
  let unread := {| index.Url := ""; index.Rev := ""; index.dir := "data/idx-0badc0de" |} in
  let found := {| refs := [Some unread]; claimed := ∅ |} in
  index_Read (Env := example.env) "data/idx-0badc0de" example.stale_dir
    = (Some unread, Some "open data/idx-0badc0de/metadata.gob: no such file or directory"%string)
  ∧ findExistingRefs (sys := example.env) "data" example.stale_dir = inl found
  ∧ find found "" "" = Ok (Some (0%nat, unread))
  ∧ ¬ claimed.found_only_readable (sys := example.env) "data" example.stale_dir.
Proof.
  cbv zeta. split; [reflexivity|]. split; [reflexivity|]. split; [reflexivity|].
  intros Hclaim.
  specialize (Hclaim ["data/idx-0badc0de"%string] _ eq_refl eq_refl).
  vm_compute in Hclaim. discriminate Hclaim.
Qed.

(** C4, amended. The scan gives the found set one entry for each
    [idx-*] directory, in the order of the directories: the reference
    [index.Read] returned for it, whether or not the read failed; no
    entry is discarded and none is claimed yet. *)
Theorem findExistingRefs_keeps_every_entry {sys : Env} (dbpath : string) (w : World)
    (dirs : list string) :
  filepath_Glob (filepath_Join [dbpath; "idx-*"]) w = inl dirs →
  ∃ found,
    findExistingRefs dbpath w = inl found
    ∧ claimed found = ∅
    ∧ length (refs found) = length dirs
    ∧ ∀ (i : nat) (dir : string),
        dirs !! i = Some dir → refs found !! i = Some (index_Read dir w).1.
Proof.
  intros Hglob. unfold findExistingRefs. rewrite Hglob. eexists.
  split; [reflexivity|]. simpl. rewrite read_each. simpl.
  split; [reflexivity|]. split; [by rewrite length_map|].
  intros i dir Hi. rewrite list_lookup_fmap, Hi. reflexivity.
Qed.

Lemma findExistingRefs_keeps_every_entry_witness :
  filepath_Glob (Env := example.env)
    (filepath_Join (Env := example.env) ["data"; "idx-*"]%string) example.stale_dir
    = inl ["data/idx-0badc0de"%string]
  ∧ ∃ found,
      findExistingRefs (sys := example.env) "data" example.stale_dir = inl found
      ∧ length (refs found) = 1%nat.
Proof.
  split; [reflexivity|].
  destruct (findExistingRefs_keeps_every_entry (sys := example.env) "data"
              example.stale_dir ["data/idx-0badc0de"%string] eq_refl)
    as (found & Hfound & _ & Hlen & _).
  exists found. split; [exact Hfound | exact Hlen].
Defined.

(** * Further properties of the code *)

Import notions.

(** ** Form values *)

(** X1. With a nonzero upper bound, [parseAsUintValue] returns the
    default or a value between 0 and the bound, whatever the lower bound
    is. *)
Theorem parseAsUintValue_bounded (sv : string) (min max def : Z) :
  0 < max →
  parseAsUintValue sv min max def = def
  ∨ 0 ≤ parseAsUintValue sv min max def ≤ max.
Proof.
  intros Hmax. unfold parseAsUintValue.
  destruct (ParseUint sv 54) as [iv [e|]] eqn:Hp; [by left|].
  right. rewrite (to_uint_parsed _ _ Hp).
  apply ParseUint_range in Hp; [|lia].
  destruct (max =? 0) eqn:H0; [apply Z.eqb_eq in H0; lia|]. simpl.
  destruct (max <? iv) eqn:Hgt; [lia|]. apply Z.ltb_ge in Hgt.
  destruct (negb (min =? 0) && (iv <? min)); lia.
Qed.

Lemma parseAsUintValue_bounded_witness :
  0 < 20 ∧ (parseAsUintValue "99" 5 20 2 = 2 ∨ 0 ≤ parseAsUintValue "99" 5 20 2 ≤ 20).
Proof.
  split; [lia|]. apply (parseAsUintValue_bounded "99" 5 20 2). lia.
Defined.

(** X2. A bound of a range is read as an unsigned 64-bit number and
    converted to [int]: values from 2^63 on come out negative; what does
    not parse counts as 0. *)
Theorem parseRangeInt_signed (v : string) :
  - 2 ^ 63 ≤ parseRangeInt v < 2 ^ 63
  ∧ parseRangeInt v
    = match ParseUint v 64 with
      | (vi, None) => if vi <? 2 ^ 63 then vi else vi - 2 ^ 64
      | (_, Some _) => 0
      end.
Proof.
  unfold parseRangeInt. destruct (String.eqb_spec v "") as [->|Hne].
  - split; [lia | reflexivity].
  - destruct (ParseUint v 64) as [vi [e|]] eqn:Hp; [split; [lia | reflexivity]|].
    apply ParseUint_range in Hp; [|lia]. unfold to_int.
    destruct (vi <? 2 ^ 63) eqn:Hlt.
    + apply Z.ltb_lt in Hlt. rewrite Z.mod_small by lia. lia.
    + apply Z.ltb_ge in Hlt.
      replace (vi + 2 ^ 63) with ((vi - 2 ^ 63) + 1 * 2 ^ 64) by lia.
      rewrite Z.mod_add by lia. rewrite Z.mod_small by lia. lia.
Qed.

Section ranges.

Lemma Index_absent (s : string) (c : ascii) :
  c ∉ list_ascii_of_string s → Index s c = -1.
Proof.
  induction s as [|a s IH]; simpl; [reflexivity|]. intros Hnot.
  destruct (Ascii.eqb_spec a c) as [->|Hne].
  - exfalso. apply Hnot. left.
  - rewrite IH; [reflexivity|]. intros Hin. apply Hnot. by right.
Qed.

Lemma Index_first (a b : string) (c : ascii) :
  c ∉ list_ascii_of_string a →
  Index (a +:+ String c b) c = Z.of_nat (String.length a).
Proof.
  induction a as [|x a IH]; simpl; intros Hnot.
  - by rewrite Ascii.eqb_refl.
  - destruct (Ascii.eqb_spec x c) as [->|Hne].
    + exfalso. apply Hnot. left.
    + rewrite IH; [|intros Hin; apply Hnot; by right].
      destruct (Z.of_nat (String.length a) <? 0) eqn:Hneg; [apply Z.ltb_lt in Hneg; lia|].
      lia.
Qed.

Lemma substring_prefix (a b : string) :
  String.substring 0 (String.length a) (a +:+ b) = a.
Proof.
  induction a as [|x a IH]; simpl.
  - by destruct b.
  - by rewrite IH.
Qed.

Lemma substring_all (b : string) : String.substring 0 (String.length b) b = b.
Proof. induction b as [|x b IH]; simpl; [reflexivity | by rewrite IH]. Qed.

Lemma substring_suffix (a b : string) :
  String.substring (String.length a) (String.length b) (a +:+ b) = b.
Proof.
  induction a as [|x a IH]; simpl; [apply substring_all | exact IH].
Qed.

Lemma append_String (x : ascii) (a b : string) :
  String x a +:+ b = String x (a +:+ b).
Proof. reflexivity. Qed.

Lemma append_assoc (a b c : string) : (a +:+ b) +:+ c = a +:+ (b +:+ c).
Proof.
  induction a as [|x a IH]; [reflexivity|]. rewrite !append_String. by rewrite IH.
Qed.

Lemma length_append (a b : string) :
  String.length (a +:+ b) = (String.length a + String.length b)%nat.
Proof. induction a as [|x a IH]; simpl; [reflexivity | by rewrite IH]. Qed.

End ranges.

(** X3. A range value is cut at its first colon: the bounds are what
    stands before it and all that follows it.  A value with no colon, a
    lone number too, gives the range (0, 0). *)
Theorem parseRangeValue_parts (a b : string) :
  ":"%char ∉ list_ascii_of_string a →
  parseRangeValue a = (0, 0)
  ∧ parseRangeValue (a +:+ ":" +:+ b) = (parseRangeInt a, parseRangeInt b).
Proof.
  intros Hnot. unfold parseRangeValue. split.
  - by rewrite (Index_absent a ":" Hnot).
  - change (":" +:+ b) with (String ":" b).
    rewrite (Index_first a b ":" Hnot).
    destruct (Z.of_nat (String.length a) <? 0) eqn:Hneg; [apply Z.ltb_lt in Hneg; lia|].
    unfold slice_to, slice_from. rewrite Nat2Z.id.
    rewrite substring_prefix.
    replace (Z.to_nat (Z.of_nat (String.length a) + 1)) with (S (String.length a)) by lia.
    replace (a +:+ String ":" b) with ((a +:+ ":") +:+ b)
      by (by rewrite append_assoc).
    set (a' := a +:+ ":").
    replace (S (String.length a)) with (String.length a')
      by (subst a'; rewrite length_append; simpl; lia).
    replace (String.length (a' +:+ b) - String.length a')%nat with (String.length b)
      by (rewrite length_append; lia).
    by rewrite substring_suffix.
Qed.

Lemma parseRangeValue_parts_witness :
  (":"%char ∉ list_ascii_of_string "10")
  ∧ parseRangeValue "10" = (0, 0)
  ∧ parseRangeValue "10:30" = (10, 30).
Proof.
  assert (Hnot : ":"%char ∉ list_ascii_of_string "10").
  { simpl. intros Hin. repeat (apply elem_of_cons in Hin as [Hin|Hin]; [discriminate Hin|]).
    by apply elem_of_nil in Hin. }
  split; [exact Hnot|].
  destruct (parseRangeValue_parts "10" "30" Hnot) as [H0 H1].
  split; [exact H0 | exact H1].
Defined.

(** ** Selections by name *)

Section named_selection.
Context {sched : Sched}.

(** The first loop of the named branch sorts the names into the ones
    the map has and the ones it has not. *)
Lemma named_loop_split (idx : gmap string Searcher) (names : list string) :
  ∀ use repos vrepos,
    foldl (λ '(use, repos, vrepos) repo,
             match idx !! repo with
             | None => (true, repos, vrepos ++ [repo])
             | Some _ => (use, repos ++ [repo], vrepos)
             end)
          (use, repos, vrepos) names
    = (use || bool_decide (filter (λ n, idx !! n = None) names ≠ []),
       repos ++ filter (λ n, is_Some (idx !! n)) names,
       vrepos ++ filter (λ n, idx !! n = None) names).
Proof.
  induction names as [|n names IH]; intros use repos vrepos; simpl.
  - by rewrite orb_false_r, !app_nil_r.
  - destruct (idx !! n) as [s|] eqn:Hn; rewrite IH.
    + rewrite (filter_cons_False (λ n, idx !! n = None)) by (by rewrite Hn).
      rewrite (filter_cons_True (λ n, is_Some (idx !! n))) by (by rewrite Hn).
      by rewrite <- app_assoc.
    + rewrite (filter_cons_True (λ n, idx !! n = None)) by done.
      rewrite (filter_cons_False (λ n, is_Some (idx !! n)))
        by (rewrite Hn; by intros [? ?]).
      rewrite orb_true_r. simpl. by rewrite <- app_assoc.
Qed.

Lemma filter_known (idx : gmap string Searcher) (names : list string) :
  Forall (λ n, is_Some (idx !! n)) names →
  filter (λ n, idx !! n = None) names = []
  ∧ filter (λ n, is_Some (idx !! n)) names = names.
Proof.
  induction names as [|n names IH]; intros Hall; [done|].
  apply Forall_cons in Hall as [[s Hn] Hall]. destruct (IH Hall) as [IH1 IH2].
  rewrite filter_cons_False by (by rewrite Hn).
  rewrite filter_cons_True by (by rewrite Hn).
  by rewrite IH1, IH2.
Qed.

(** On searchers that all have a descriptor the second loop adds the
    hidden ones and cannot panic. *)
Lemma add_hidden_live (l : list (string * Searcher)) :
  Forall (λ e, is_Some (Repo e.2)) l →
  ∀ repos,
    add_hidden l repos
    = Ok (repos ++ (filter (λ e, IsHidden e.2 = Ok true) l).*1).
Proof.
  induction l as [|[k s] l IH]; intros Hall repos; simpl.
  - by rewrite app_nil_r.
  - apply Forall_cons in Hall as [[repo Hrepo] Hall]. simpl in Hrepo.
    unfold IsHidden at 1. rewrite Hrepo. simpl.
    rewrite (IH Hall).
    destruct (config.IsHidden repo) eqn:Hh.
    + rewrite filter_cons_True by (simpl; unfold IsHidden; by rewrite Hrepo, Hh).
      simpl. by rewrite <- app_assoc.
    + rewrite filter_cons_False
        by (simpl; unfold IsHidden; rewrite Hrepo, Hh; discriminate).
      reflexivity.
Qed.

Lemma insert_sorted_perm (x : string) (l : list string) :
  insert_sorted x l ≡ₚ x :: l.
Proof.
  induction l as [|y l IH]; simpl; [reflexivity|].
  destruct (String.leb x y); [reflexivity|].
  rewrite IH. apply Permutation_swap.
Qed.

Lemma sort_Strings_perm (l : list string) : sort_Strings l ≡ₚ l.
Proof.
  induction l as [|x l IH]; simpl; [reflexivity|].
  unfold sort_Strings in *. simpl. rewrite insert_sorted_perm. by rewrite IH.
Qed.

Lemma insert_sorted_sorted (x : string) (l : list string) :
  StronglySorted String.le l → StronglySorted String.le (insert_sorted x l).
Proof.
  induction l as [|y l IH]; intros Hs; simpl.
  - repeat constructor.
  - apply StronglySorted_inv in Hs as [Hl Hy].
    destruct (String.leb x y) eqn:Hxy.
    + constructor; [by constructor|].
      assert (Hle : String.le x y) by (unfold String.le; by rewrite Hxy).
      constructor; [exact Hle|].
      eapply Forall_impl; [exact Hy|]. intros z Hz. by etrans.
    + constructor; [by apply IH|].
      rewrite insert_sorted_perm. constructor; [|exact Hy].
      destruct (total String.le x y) as [Hle|Hle]; [|exact Hle].
      unfold String.le in Hle. rewrite Hxy in Hle. done.
Qed.

Lemma sort_Strings_sorted (l : list string) : StronglySorted String.le (sort_Strings l).
Proof.
  induction l as [|x l IH]; simpl; [constructor|].
  unfold sort_Strings in *. simpl. by apply insert_sorted_sorted.
Qed.

End named_selection.

(** X4. When every name of a comma-separated list is in the map, the
    selection is that list as it was written, duplicates and order kept,
    with no virtual selector, and no hidden repository is added. *)
Theorem parseAsRepoList_known {sched : Sched} (v : string) (idx : gmap string Searcher) :
  TrimSpace v ≠ "*"%string →
  TrimSpace v ≠ ""%string →
  Forall (λ name, is_Some (idx !! name)) (Split (TrimSpace v) ",") →
  parseAsRepoList v idx = Ok (Split (TrimSpace v) ",", []).
Proof.
  intros Hstar Hempty Hall. unfold parseAsRepoList. cbv zeta.
  apply String.eqb_neq in Hstar, Hempty. rewrite Hstar, Hempty. simpl.
  rewrite named_loop_split. simpl.
  destruct (filter_known idx _ Hall) as [Hnone Hsome].
  rewrite Hnone, Hsome. simpl. reflexivity.
Qed.

Lemma parseAsRepoList_known_witness :
  let idx : gmap string Searcher :=
    {[ "A"%string := example.sA; "B"%string := example.sB; "H"%string := example.sH ]} in
  (TrimSpace " B,A,B " ≠ "*"%string
   ∧ TrimSpace " B,A,B " ≠ ""%string
   ∧ Forall (λ name, is_Some (idx !! name)) (Split (TrimSpace " B,A,B ") ","))
  ∧ parseAsRepoList (sched := in_order) " B,A,B " idx = Ok (["B"; "A"; "B"]%string, []).
Proof.
  cbv zeta.
  assert (H1 : TrimSpace " B,A,B " ≠ "*"%string) by (vm_compute; discriminate).
  assert (H2 : TrimSpace " B,A,B " ≠ ""%string) by (vm_compute; discriminate).
  assert (H3 : Forall (λ name, is_Some (({[ "A"%string := example.sA;
                                           "B"%string := example.sB;
                                           "H"%string := example.sH ]}
                                          : gmap string Searcher) !! name))
                 (Split (TrimSpace " B,A,B ") ",")).
  { change (Split (TrimSpace " B,A,B ") ",") with ["B"; "A"; "B"]%string.
    repeat constructor; vm_compute; eauto. }
  split; [repeat split; assumption|].
  exact (parseAsRepoList_known (sched := in_order) " B,A,B " _ H1 H2 H3).
Defined.

(** X5. On a map whose searchers all have a descriptor a selection by
    names cannot panic.  The virtual selectors it returns are the names
    that are not in the map, in ascending order; the selection is the
    names that are in the map, followed, when there is a virtual
    selector, by every hidden repository of the map. *)
Theorem parseAsRepoList_virtual {sched : Sched} (v : string) (idx : gmap string Searcher) :
  TrimSpace v ≠ "*"%string →
  TrimSpace v ≠ ""%string →
  (∀ name s, idx !! name = Some s → is_Some (Repo s)) →
  let names := Split (TrimSpace v) "," in
  ∃ repos vrepos,
    parseAsRepoList v idx = Ok (repos, vrepos)
    ∧ StronglySorted String.le vrepos
    ∧ vrepos ≡ₚ filter (λ n, idx !! n = None) names
    ∧ (vrepos = [] ∧ repos = filter (λ n, is_Some (idx !! n)) names
       ∨ vrepos ≠ []
         ∧ ∃ hidden,
             repos = filter (λ n, is_Some (idx !! n)) names ++ hidden
             ∧ NoDup hidden
             ∧ ∀ name, name ∈ hidden
                 ↔ ∃ s, idx !! name = Some s ∧ IsHidden s = Ok true).
Proof.
  intros Hstar Hempty Hlive names. unfold parseAsRepoList. cbv zeta.
  apply String.eqb_neq in Hstar, Hempty. rewrite Hstar, Hempty. simpl.
  fold names. rewrite named_loop_split. simpl.
  assert (Hrange : Forall (λ e : string * Searcher, is_Some (Repo e.2)) (range idx)).
  { apply Forall_forall. intros [k s] Hin. apply elem_of_range in Hin.
    simpl. by apply (Hlive k). }
  set (unknown := filter (λ n, idx !! n = None) names).
  destruct (bool_decide (unknown ≠ [])) eqn:Hu.
  - apply bool_decide_eq_true in Hu.
    rewrite (add_hidden_live _ Hrange). simpl.
    eexists _, _. split; [reflexivity|].
    split; [apply sort_Strings_sorted|]. split; [apply sort_Strings_perm|].
    right. split.
    { intros Hnil. apply Hu. apply Permutation_nil_r. rewrite <- Hnil.
      symmetry. apply sort_Strings_perm. }
    eexists. split; [reflexivity|]. split.
    + eapply NoDup_fmap_fst; [|apply NoDup_filter].
      * intros k s1 s2 [_ H1]%list_elem_of_filter [_ H2]%list_elem_of_filter.
        apply elem_of_range in H1, H2. congruence.
      * rewrite range_perm. apply NoDup_map_to_list.
    + intros name. rewrite list_elem_of_fmap. split.
      * intros ([k s] & -> & [Hh Hin]%list_elem_of_filter).
        apply elem_of_range in Hin. eauto.
      * intros (s & Hs & Hh). exists (name, s). split; [reflexivity|].
        apply list_elem_of_filter. split; [exact Hh|]. by apply elem_of_range.
  - apply bool_decide_eq_false in Hu.
    assert (Hnil : unknown = []) by (destruct unknown; [reflexivity|]; exfalso; by apply Hu).
    simpl. eexists _, _. split; [reflexivity|]. rewrite Hnil. simpl.
    split; [constructor|]. split; [reflexivity|]. left. split; reflexivity.
Qed.

Lemma parseAsRepoList_virtual_witness :
  let idx : gmap string Searcher :=
    {[ "A"%string := example.sA; "H"%string := example.sH ]} in
  (TrimSpace "A,org/proj" ≠ "*"%string
   ∧ TrimSpace "A,org/proj" ≠ ""%string
   ∧ ∀ name s, idx !! name = Some s → is_Some (Repo s))
  ∧ ∃ repos vrepos,
      parseAsRepoList (sched := in_order) "A,org/proj" idx = Ok (repos, vrepos)
      ∧ vrepos ≡ₚ ["org/proj"%string].
Proof.
  cbv zeta.
  assert (H1 : TrimSpace "A,org/proj" ≠ "*"%string) by (vm_compute; discriminate).
  assert (H2 : TrimSpace "A,org/proj" ≠ ""%string) by (vm_compute; discriminate).
  assert (H3 : ∀ name s,
             ({[ "A"%string := example.sA; "H"%string := example.sH ]}
                : gmap string Searcher) !! name = Some s → is_Some (Repo s)).
  { intros name s Hs.
    apply lookup_insert_Some in Hs as [[_ <-]|[_ Hs]]; [by eexists|].
    apply lookup_singleton_Some in Hs as [_ <-]. by eexists. }
  split; [repeat split; assumption|].
  destruct (parseAsRepoList_virtual (sched := in_order) "A,org/proj" _ H1 H2 H3)
    as (repos & vrepos & Hsel & _ & Hperm & _).
  exists repos, vrepos. split; [exact Hsel|].
  rewrite Hperm. vm_compute. reflexivity.
Defined.

(** ** What the update endpoint changes *)

Section update_effect.
Context {sched : Sched} {sys : Env}.

Lemma poked_refl now s : poked now s s.
Proof. split; [by destruct s | by left]. Qed.

Lemma poked_Update now s : poked now s (Update now s).2.
Proof.
  unfold Update. destruct (Repo s) as [repo|]; [|apply poked_refl].
  destruct (negb (config.PushUpdatesEnabled repo)); [apply poked_refl|].
  unfold try_send, updateCh_cap. destruct (updateCh s) as [|t c] eqn:Hc; simpl.
  - split; [reflexivity|]. right. by rewrite Hc.
  - destruct c; apply poked_refl.
Qed.

Lemma poked_trans now s1 s2 s3 : poked now s1 s2 → poked now s2 s3 → poked now s1 s3.
Proof.
  intros [H12 C12] [H23 C23]. split.
  - rewrite H23. rewrite H12. by destruct s1.
  - destruct C23 as [E23|[E2 E3]].
    + rewrite E23. exact C12.
    + destruct C12 as [E12|[E1 _]].
      * right. split; [by rewrite <- E12 | exact E3].
      * right. by split.
Qed.

Lemma update_loop_poked (repos : list string) (now : Z) :
  ∀ m : gmap string Searcher,
    let m' := (update_loop repos now m).2 in
    ∀ name, option_Forall2 (poked now) (m !! name) (m' !! name).
Proof.
  induction repos as [|repo rest IH]; intros m; simpl.
  - intros name. destruct (m !! name); constructor. apply poked_refl.
  - destruct (m !! repo) as [s|] eqn:Hs.
    + pose proof (poked_Update now s) as Hp.
      destruct (Update now s) as [ok s']. simpl in Hp.
      assert (Hstep : ∀ name, option_Forall2 (poked now) (m !! name)
                                (<[repo := s']> m !! name)).
      { intros name. destruct (decide (repo = name)) as [<-|Hne].
        - rewrite lookup_insert_eq, Hs. by constructor.
        - rewrite lookup_insert_ne by done.
          destruct (m !! name); constructor. apply poked_refl. }
      destruct ok; simpl; [|exact Hstep].
      intros name. specialize (IH (<[repo := s']> m) name). simpl in IH.
      specialize (Hstep name).
      destruct Hstep as [x y Hxy|]; inversion IH; subst; constructor.
      eapply poked_trans; eauto.
    + simpl. intros name. destruct (m !! name); constructor. apply poked_refl.
Qed.

End update_effect.

(** X6. Whatever the request, the update handler answers 200, 403 or
    405, keeps the names of the map, and changes nothing of a searcher
    but its update mailbox, into which it puts at most the one event
    that an empty mailbox takes. *)
Theorem handle_update_only_pokes {sched : Sched} {sys : Env} (r : Request) (now : Z)
    (w : World) (gSearchers gSearchers' : option (gmap string Searcher))
    (resp : Response) :
  handle_update r now w gSearchers = Ok (resp, gSearchers') →
  (Status resp = 200 ∨ Status resp = 403 ∨ Status resp = 405)
  ∧ ∀ name,
      option_Forall2 (poked now)
        (default ∅ gSearchers !! name) (default ∅ gSearchers' !! name).
Proof.
  unfold handle_update.
  assert (Hrefl : ∀ name, option_Forall2 (poked now)
                    (default ∅ gSearchers !! name) (default ∅ gSearchers !! name)).
  { intros name. destruct (default ∅ gSearchers !! name); constructor. apply poked_refl. }
  destruct (checkReady gSearchers) as [notReady|] eqn:Hready.
  - intros [= <- <-]. split; [|exact Hrefl].
    unfold checkReady in Hready. destruct (_ && _); [discriminate|].
    injection Hready as <-. by left.
  - destruct (negb (String.eqb (Method r) "POST")).
    + intros [= <- <-]. split; [|exact Hrefl]. right; right; reflexivity.
    + destruct (parseAsRepoList _ _) as [[repos vrepos]|] eqn:Hsel; simpl; [|discriminate].
      pose proof (update_loop_answer repos now _ (parseAsRepoList_in_map _ _ _ _ Hsel)) as Hans.
      pose proof (update_loop_poked repos now (default ∅ gSearchers)) as Hpoke.
      destruct (update_loop repos now _) as [resp' m']. simpl in Hans, Hpoke.
      intros [= <- <-]. split; [|exact Hpoke].
      rewrite Hans. destruct (List.find _ repos); [right; left | left]; reflexivity.
Qed.

Lemma handle_update_only_pokes_witness :
  let gSearchers : option (gmap string Searcher) :=
    Some {[ "A"%string := example.sA; "C"%string := example.sC ]} in
  let gSearchers' : option (gmap string Searcher) :=
    Some {[ "A"%string := set_updateCh [7] example.sA; "C"%string := example.sC ]} in
  let resp :=
    {| Status := 403;
       Body := ErrorBody "Push updates are not enabled for repository C" |} in
  handle_update (sched := in_order) (sys := example.env)
    (example.POST [("repos", "A,C")]%string) 7 example.no_dirs gSearchers
  = Ok (resp, gSearchers')
  ∧ option_Forall2 (poked 7)
      (default ∅ gSearchers !! "A"%string) (default ∅ gSearchers' !! "A"%string).
Proof.
  cbv zeta.
  assert (Hrun : handle_update (sched := in_order) (sys := example.env)
                   (example.POST [("repos", "A,C")]%string) 7 example.no_dirs
                   (Some {[ "A"%string := example.sA; "C"%string := example.sC ]})
                 = Ok ({| Status := 403;
                          Body := ErrorBody "Push updates are not enabled for repository C" |},
                       Some {[ "A"%string := set_updateCh [7] example.sA;
                               "C"%string := example.sC ]}))
    by (vm_compute; reflexivity).
  split; [exact Hrun|].
  exact (proj2 (handle_update_only_pokes (sched := in_order) (sys := example.env)
                  _ _ _ _ _ _ Hrun) "A"%string).
Defined.

(** ** The shape of a search result *)

Section search_shape.
Context {sched : Sched} {sys : Env}.

Lemma receive_shape (received : list searchResponse) :
  ∀ res filesOpened,
    (∃ res' filesOpened',
       receive received res filesOpened = ((Some res', None), filesOpened')
       ∧ Forall (λ x, ∃ resp, x.2 = inl resp) received)
    ∨ (∃ repo err filesOpened',
         receive received res filesOpened = ((None, Some err), filesOpened')
         ∧ (repo, inr err) ∈ received).
Proof.
  induction received as [|[r [resp|err]] rest IH]; intros res fo.
  - left. exists res, fo. split; [reflexivity | constructor].
  - assert (Hstep : ∃ res' fo', receive ((r, inl resp) :: rest) res fo
                                = receive rest res' fo').
    { simpl. destruct (index.Matches resp), (index.VMatches resp); eauto. }
    destruct Hstep as (res1 & fo1 & Hstep).
    destruct (IH res1 fo1) as [(res' & fo' & Hrun & Hall)|(repo & err & fo' & Hrun & Hin)].
    + left. exists res', fo'. split; [exact (eq_trans Hstep Hrun)|].
      constructor; [by exists resp | exact Hall].
    + right. exists repo, err, fo'. split; [exact (eq_trans Hstep Hrun)|]. by right.
  - right. exists r, err, fo. split; [reflexivity | by left].
Qed.


End search_shape.

(** X7. [searchAll] returns either a map of results and no error, or
    no map and an error, never both and never neither.  It returns an
    error exactly when the search of some selected repository of the map
    fails; the duration is set only on success. *)
Theorem searchAll_map_or_error {sched : Sched} {sys : Env} (query : string)
    (opts : index.SearchOptions) (repos vrepos : list string)
    (idx : gmap string Searcher) (filesOpened duration : Z) (w : World) :
  let fails :=
    ∃ repo s err, repo ∈ repos ∧ idx !! repo = Some s
                  ∧ idx_Search (searcher.idx s) query opts vrepos w = inr err in
  (∃ res filesOpened',
     searchAll query opts repos vrepos idx filesOpened duration w
     = ((Some res, None), filesOpened', elapsed_ms)
     ∧ ¬ fails)
  ∨ (∃ err filesOpened',
       searchAll query opts repos vrepos idx filesOpened duration w
       = ((None, Some err), filesOpened', duration)
       ∧ fails).
Proof.
  intros fails. unfold searchAll. cbv zeta.
  destruct (receive_shape (arrival (launch query opts repos vrepos idx w)) ∅ filesOpened)
    as [(res' & fo' & Hrun & Hall)|(repo & err & fo' & Hrun & Hin)]; rewrite Hrun.
  - left. exists res', fo'. split; [reflexivity|].
    intros (repo & s & err & Hin & Hs & Herr).
    pose proof (failed_search_sent _ _ _ _ _ _ _ _ _ Hin Hs Herr) as Hsent.
    rewrite Forall_forall in Hall. destruct (Hall _ Hsent) as [resp Hresp].
    discriminate Hresp.
  - right. exists err, fo'. split; [reflexivity|].
    rewrite arrival_perm, launch_sent in Hin.
    apply list_elem_of_omap in Hin as (name & Hname & Hsent).
    destruct (idx !! name) as [s|] eqn:Hs; [|discriminate].
    simpl in Hsent. injection Hsent as <- Herr. by exists name, s, err.
Qed.


(** ** Listing repositories and excluded files *)

Section listing.
Context {sched : Sched} {sys : Env}.

(** A searcher with a descriptor that is not hidden. *)
#[local] Abbreviation plain s :=
  (∃ repo, Repo s = Some repo ∧ config.IsHidden repo = false).

Lemma repos_loop_plain (l : list (string * Searcher)) :
  NoDup l.*1 →
  Forall (λ e, plain e.2) l →
  ∀ res, ∃ res',
    repos_loop l res = Ok res'
    ∧ ∀ k, res' !! k
           = match (list_to_map l : gmap string Searcher) !! k ≫= Repo with
             | Some repo => Some repo
             | None => res !! k
             end.
Proof.
  induction l as [|[n s] l IH]; intros Hnd Hall res.
  - exists res. split; [reflexivity|]. intros k. simpl. by rewrite lookup_empty.
  - apply NoDup_cons in Hnd as [Hn Hnd].
    apply Forall_cons in Hall as [(repo & Hrepo & Hplain) Hall]. simpl in Hrepo.
    destruct (IH Hnd Hall (<[n := repo]> res)) as (res' & Hrun & Hlook).
    exists res'. split.
    + simpl. unfold IsHidden. rewrite Hrepo. simpl. rewrite Hplain. exact Hrun.
    + intros k. rewrite Hlook. simpl.
      destruct (decide (n = k)) as [<-|Hne].
      * rewrite !lookup_insert_eq.
        rewrite (not_elem_of_list_to_map_1 l n Hn). simpl. by rewrite Hrepo.
      * rewrite !lookup_insert_ne by done. reflexivity.
Qed.


Lemma range_plain (m : gmap string Searcher) :
  (∀ name s, m !! name = Some s → plain s) →
  Forall (λ e : string * Searcher, plain e.2) (range m).
Proof.
  intros Hplain. apply Forall_forall. intros [k s] Hin.
  apply elem_of_range in Hin. simpl. by apply (Hplain k).
Qed.

Lemma list_to_map_range (m : gmap string Searcher) : list_to_map (range m) = m.
Proof.
  rewrite <- (list_to_map_to_list m) at 2.
  apply list_to_map_proper; [apply range_keys_NoDup | apply range_perm].
Qed.

End listing.

(** X9. When no repository of the map is hidden, [/api/v1/repos] lists
    every name of the map with its descriptor, and nothing else, in
    whatever order the map is ranged over. *)
Theorem handle_repos_lists_map {sched : Sched} {sys : Env} (r : Request) (now : Z)
    (w : World) (m : gmap string Searcher) :
  m ≠ ∅ →
  (∀ name s, m !! name = Some s →
     ∃ repo, Repo s = Some repo ∧ config.IsHidden repo = false) →
  handle_repos r now w (Some m)
  = Ok ({| Status := 200; Body := ReposBody (omap Repo m) |}, Some m).
Proof.
  intros Hne Hplain. unfold handle_repos.
  assert (Hready : checkReady (Some m) = None)
    by (apply checkReady_iff; by exists m).
  rewrite Hready. simpl.
  destruct (repos_loop_plain (range m) (range_keys_NoDup m) (range_plain m Hplain) ∅)
    as (res & Hrun & Hlook).
  rewrite Hrun. simpl.
  assert (res = omap Repo m) as ->; [|reflexivity].
  apply map_eq. intros k. rewrite Hlook, list_to_map_range, lookup_omap, lookup_empty.
  by destruct (m !! k ≫= Repo).
Qed.

Lemma handle_repos_lists_map_witness :
  let m : gmap string Searcher := {[ "A"%string := example.sA; "C"%string := example.sC ]} in
  (m ≠ ∅
   ∧ ∀ name s, m !! name = Some s →
       ∃ repo, Repo s = Some repo ∧ config.IsHidden repo = false)
  ∧ handle_repos (sched := in_order) (sys := example.env) (example.GET []) 0
      example.no_dirs (Some m)
    = Ok ({| Status := 200; Body := ReposBody (omap Repo m) |}, Some m).
Proof.
  cbv zeta.
  assert (H1 : ({[ "A"%string := example.sA; "C"%string := example.sC ]}
                  : gmap string Searcher) ≠ ∅).
  { intros Heq. apply (f_equal (λ m : gmap string Searcher, m !! "A"%string)) in Heq.
    vm_compute in Heq. discriminate Heq. }
  assert (H2 : ∀ name s,
             ({[ "A"%string := example.sA; "C"%string := example.sC ]}
                : gmap string Searcher) !! name = Some s →
             ∃ repo, Repo s = Some repo ∧ config.IsHidden repo = false).
  { intros name s Hs.
    apply lookup_insert_Some in Hs as [[_ <-]|[_ Hs]]; [by eexists|].
    apply lookup_singleton_Some in Hs as [_ <-]. by eexists. }
  split; [split; assumption|].
  exact (handle_repos_lists_map (sched := in_order) (sys := example.env)
           (example.GET []) 0 example.no_dirs _ H1 H2).
Defined.



Section excluded.
Context {sys : Env}.

Lemma Split_no_sep (s : string) (c : ascii) :
  c ∉ list_ascii_of_string s → Split s c = [s].
Proof.
  induction s as [|a s IH]; simpl; [reflexivity|]. intros Hnot.
  destruct (Ascii.eqb_spec a c) as [->|Hne].
  - exfalso. apply Hnot. left.
  - rewrite IH; [reflexivity|]. intros Hin. apply Hnot. by right.
Qed.

Lemma excluded_in_panics (repo : string) (raw : list index.ExcludedFile)
    (d : index.ExcludedFile) :
  d ∈ raw →
  Index_string (index.EFilename d) repo = 0 →
  "/"%char ∉ list_ascii_of_string (index.EFilename d) →
  ∀ excluded, excluded_in repo raw excluded = Panic.
Proof.
  intros Hin Hprefix Hflat.
  induction raw as [|e raw IH]; intros excluded; [by apply elem_of_nil in Hin|].
  apply elem_of_cons in Hin as [<-|Hin]; simpl.
  - rewrite Hprefix. simpl. by rewrite (Split_no_sep _ _ Hflat).
  - destruct (Index_string (index.EFilename e) repo =? 0); [|by apply IH].
    destruct (slice_from_index _ 2) as [names|]; simpl; [by apply IH | reflexivity].
Qed.

End excluded.

(** X11. Asked for the excluded files of a virtual repository,
    [GetExcludedFiles] panics when the log holds a file whose name
    starts with the last element of the repository's name and has no
    path separator: cutting off the repository and the branch slices
    past the end of its one path element. *)
Theorem GetExcludedFiles_flat_name_panics {sys : Env} (s : Searcher) (repo : string)
    (w : World) (d : index.ExcludedFile) :
  repo ≠ ""%string →
  d ∈ json_Unmarshal
        (ioutil_ReadFile
           (filepath_Join [index.dir (index.Ref (idx s)); "excluded_files.json"]) w).1 →
  Index_string (index.EFilename d) (filepath_Base repo) = 0 →
  ("/"%char ∉ list_ascii_of_string (index.EFilename d)) →
  GetExcludedFiles s repo w = Panic.
Proof.
  intros Hrepo Hin Hprefix Hflat. unfold GetExcludedFiles.
  destruct (ioutil_ReadFile _ w) as [dat e]. simpl in Hin.
  apply String.eqb_neq in Hrepo. rewrite Hrepo. simpl.
  by rewrite (excluded_in_panics _ _ d Hin Hprefix Hflat).
Qed.

Lemma GetExcludedFiles_flat_name_panics_witness :
  let d := {| index.EFilename := "proj.bin"; index.Reason := "binary" |} in
  let sys := example2.env [d] false in
  ("org/proj"%string ≠ ""%string
   ∧ d ∈ json_Unmarshal
           (ioutil_ReadFile
              (filepath_Join [index.dir (index.Ref (idx example.sH));
                              "excluded_files.json"%string]) example.no_dirs).1
   ∧ Index_string (index.EFilename d) (filepath_Base "org/proj") = 0
   ∧ ("/"%char ∉ list_ascii_of_string (index.EFilename d)))
  ∧ GetExcludedFiles (sys := sys) example.sH "org/proj" example.no_dirs = Panic.
Proof.
  cbv zeta.
  assert (H1 : "org/proj"%string ≠ ""%string) by discriminate.
  assert (H2 : {| index.EFilename := "proj.bin"; index.Reason := "binary" |}
               ∈ [ {| index.EFilename := "proj.bin"; index.Reason := "binary" |} ])
    by (apply elem_of_cons; left; reflexivity).
  assert (H3 : Index_string "proj.bin" (filepath_Base (Env := example.env) "org/proj") = 0)
    by (vm_compute; reflexivity).
  assert (H4 : "/"%char ∉ list_ascii_of_string "proj.bin").
  { simpl. intros Hin. repeat (apply elem_of_cons in Hin as [Hin|Hin]; [discriminate Hin|]).
    by apply elem_of_nil in Hin. }
  split; [repeat split; assumption|].
  exact (GetExcludedFiles_flat_name_panics
           (sys := example2.env [ {| index.EFilename := "proj.bin";
                                     index.Reason := "binary" |} ] false)
           example.sH "org/proj" example.no_dirs
           {| index.EFilename := "proj.bin"; index.Reason := "binary" |}
           H1 H2 H3 H4).
Defined.

(** ** Stopping a searcher *)

(** X12. [Stop] is idempotent: a second call changes nothing.  It only
    ever touches the shutdown channel and the shutdown flag, and after
    it the channel holds an event. *)
Theorem Stop_idempotent (s : Searcher) :
  Stop (Stop s) = Stop s
  ∧ shutdownCh (Stop s) ≠ []
  ∧ Stop s = set_shutdown (shutdownRequested (Stop s)) (shutdownCh (Stop s)) s.
Proof.
  destruct s as [i r v u q c d].
  destruct c as [|x [|y c]]; unfold Stop, try_send, shutdownCh_cap; simpl;
    (split; [reflexivity|]; split; [discriminate | reflexivity]).
Qed.

Section stopping.
Context {sys : Env}.

Lemma waitForUpdate_flag (delay : Z) (ev : wake) (s s1 : Searcher) :
  waitForUpdate delay ev s = Some s1 →
  shutdownRequested s1 = shutdownRequested s ∧ doneCh_closed s1 = doneCh_closed s.
Proof.
  unfold waitForUpdate. destruct ev.
  - destruct (updateCh s); [discriminate|]. intros [= <-]. done.
  - destruct (0 <? delay); [|discriminate]. intros [= <-]. done.
  - destruct (shutdownCh s); [discriminate|]. intros [= <-]. done.
Qed.

End stopping.



(** ** Rebuilding an index *)

Section rebuild.
Context {sys : Env}.

Lemma setVRepos_keeps (vcsDir : string) (st st' : state) (b : bool) :
  setVRepos vcsDir st = Ok (b, st') →
  world st' = world st ∧ lim st' = lim st ∧ log st' = log st
  ∧ Repo (sr st') = Repo (sr st)
  ∧ mailboxes (sr st') = mailboxes (sr st)
  ∧ index.Ref (idx (sr st')) = index.Ref (idx (sr st)).
Proof.
  unfold setVRepos. destruct (Repo (sr st)) as [repo|] eqn:Hrepo; [|discriminate].
  destruct (config.IsHidden repo).
  - simpl. destruct (filepath_Glob _ _) as [dirs|e].
    + destruct (add_vrepos _ dirs _) as [vr|]; simpl; [|discriminate].
      intros [= _ <-]. simpl. by rewrite Hrepo.
    + intros [= _ <-]. simpl. by rewrite Hrepo.
  - intros [= _ <-]. by rewrite Hrepo.
Qed.

Lemma setVRepos_plain (vcsDir : string) (st : state) (repo : config.Repo) :
  Repo (sr st) = Some repo → config.IsHidden repo = false →
  setVRepos vcsDir st = Ok (true, st).
Proof. intros Hrepo Hplain. unfold setVRepos. by rewrite Hrepo, Hplain. Qed.

End rebuild.

(** X14. Whatever happens in an attempt to update and reindex, the
    token of the limiter is given back, and the mailboxes, the shutdown
    flag and the completion channel of the searcher are not touched.
    When the attempt reports false it returns the revision it was given;
    when it reports true the revision it returns is a different one and
    is the revision of the descriptor. *)
Theorem updateAndReindex_keeps {sys : Env} (dbpath vcsDir name rev : string)
    (wd : WorkDir World) (opt : index.IndexOptions) (st st' : state)
    (r : string) (ok : bool) :
  updateAndReindex dbpath vcsDir name rev wd opt st = Ok (r, ok, st') →
  lim st' = lim st
  ∧ mailboxes (sr st') = mailboxes (sr st)
  ∧ if ok then r ≠ rev ∧ config.Revision <$> Repo (sr st') = Some r
    else r = rev.
Proof.
  unfold updateAndReindex. cbv zeta.
  change (sr (Acquire st)) with (sr st). change (world (Acquire st)) with (world st).
  destruct (Repo (sr st)) as [repo|] eqn:Hrepo; [|discriminate].
  destruct (PullOrClone wd vcsDir (config.Url repo) (world st)) as [[newRev|err] w1].
  2:{ intros [= <- <- <-]. done. }
  destruct (String.eqb_spec newRev rev) as [->|Hne].
  { intros [= <- <- <-]. done. }
  destruct (nextIndexDir dbpath _) as [idxDir w2].
  destruct (buildAndOpenIndex opt dbpath vcsDir idxDir (config.Url repo) newRev w2)
    as [[i|err] w3].
  2:{ intros [= <- <- <-]. done. }
  destruct (setVRepos vcsDir _) as [[b st3]|] eqn:Hset; simpl; [|discriminate].
  apply setVRepos_keeps in Hset as (Hw & Hl & Hlog & Hre & Hmail & _).
  simpl in Hw, Hl, Hlog, Hre, Hmail.
  unfold swapIndexes. simpl.
  destruct (idx_Destroy (idx (sr st3)) (world st3)) as [[err|] w4]; simpl.
  - destruct (idx_Destroy i w4) as [[derr|] w5]; intros [= <- <- <-]; simpl;
      rewrite Hl; done.
  - intros [= <- <- <-]. simpl. rewrite Hl.
    split; [done|]. split; [exact Hmail|]. split; [exact Hne|].
    rewrite Hre. reflexivity.
Qed.

Lemma updateAndReindex_keeps_witness :
  let st : state (sys := example.env) :=
    @Build_state example.env example.sA example2.changed 1 [] in
  ∃ st',
    updateAndReindex (sys := example.env) "data" "/tmp/A" "A" "r1" example.local_wd
      (p_opt example.poller_A) st = Ok ("r2"%string, true, st')
    ∧ lim st' = 1%nat
    ∧ config.Revision <$> Repo (sr st') = Some "r2"%string.
Proof.
  cbv zeta. eexists.
  assert (Hrun : updateAndReindex (sys := example.env) "data" "/tmp/A" "A" "r1"
                   example.local_wd (p_opt example.poller_A)
                   (@Build_state example.env example.sA example2.changed 1 [])
                 = Ok ("r2"%string, true, _))
    by (vm_compute; reflexivity).
  split; [exact Hrun|].
  destruct (updateAndReindex_keeps (sys := example.env) _ _ _ _ _ _ _ _ _ _ Hrun)
    as (Hlim & _ & _ & Hrev).
  split; [exact Hlim | exact Hrev].
Defined.

(** X15. Once the new index of a repository that is not hidden is
    built, it becomes the searcher's index and the descriptor takes the
    new revision, whether or not the old index can then be destroyed.
    If it can, the attempt reports true with the new revision.  If it
    cannot, the new index is destroyed as well and the attempt reports
    false with the old revision: the searcher is left with an index that
    was destroyed and a descriptor of the new revision, and the next
    round pulls and builds again. *)
Theorem updateAndReindex_swap {sys : Env} (dbpath vcsDir name rev : string)
    (wd : WorkDir World) (opt : index.IndexOptions) (st : state)
    (repo : config.Repo) (newRev : string) (w1 w3 w4 : World)
    (i : index.Index) (old_err : option error) :
  Repo (sr st) = Some repo →
  config.IsHidden repo = false →
  PullOrClone wd vcsDir (config.Url repo) (world st) = (inl newRev, w1) →
  newRev ≠ rev →
  buildAndOpenIndex opt dbpath vcsDir (nextIndexDir dbpath w1).1 (config.Url repo)
    newRev (nextIndexDir dbpath w1).2 = (inl i, w3) →
  idx_Destroy (idx (sr st)) w3 = (old_err, w4) →
  ∃ st',
    updateAndReindex dbpath vcsDir name rev wd opt st
    = Ok (match old_err with
          | None => (newRev, true)
          | Some _ => (rev, false)
          end, st')
    ∧ idx (sr st') = i
    ∧ Repo (sr st') = Some (config.set_Revision newRev repo)
    ∧ world st' = match old_err with
                  | None => w4
                  | Some _ => (idx_Destroy i w4).2
                  end
    ∧ lim st' = lim st.
Proof.
  intros Hrepo Hplain Hpull Hne Hbuild Hold.
  unfold updateAndReindex. cbv zeta.
  change (sr (Acquire st)) with (sr st). change (world (Acquire st)) with (world st).
  rewrite Hrepo, Hpull.
  apply String.eqb_neq in Hne. rewrite Hne. simpl.
  destruct (nextIndexDir dbpath w1) as [idxDir w2]. simpl in Hbuild. rewrite Hbuild.
  erewrite setVRepos_plain; [|reflexivity|exact Hplain]. simpl.
  unfold swapIndexes. simpl. rewrite Hold. simpl.
  destruct old_err as [err|].
  - destruct (idx_Destroy i w4) as [[derr|] w5]; eexists; (split; [reflexivity|]); done.
  - eexists. split; [reflexivity|]. done.
Qed.

Lemma updateAndReindex_swap_witness :
  let sys := example2.env [] true in
  let st : state (sys := sys) := @Build_state sys example.sA example2.changed 0 [] in
  let i := example.open_ref {| index.Url := "file:///tmp/A"; index.Rev := "r2";
                               index.dir := "data/idx-00000000" |} in
  ∃ st',
    updateAndReindex (sys := sys) "data" "/tmp/A" "A" "r1" example.local_wd
      (p_opt example.poller_A) st = Ok ("r1"%string, false, st')
    ∧ idx (sr st') = i
    ∧ config.Revision <$> Repo (sr st') = Some "r2"%string.
Proof.
  cbv zeta.
  destruct (updateAndReindex_swap (sys := example2.env [] true)
              "data" "/tmp/A" "A" "r1" example.local_wd (p_opt example.poller_A)
              (@Build_state (example2.env [] true) example.sA example2.changed 0 [])
              (example.repo_of "file:///tmp/A" (Some true) None) "r2"
              example2.changed example2.changed example2.changed
              (example.open_ref {| index.Url := "file:///tmp/A"; index.Rev := "r2";
                                   index.dir := "data/idx-00000000" |})
              (Some "remove data/idx-0000000000000001: permission denied"%string)
              eq_refl eq_refl eq_refl ltac:(discriminate) eq_refl eq_refl)
    as (st' & Hrun & Hidx & Hrepo & _).
  exists st'. split; [exact Hrun|]. split; [exact Hidx|]. by rewrite Hrepo.
Defined.

(** ** Found index references *)

Section found_refs.
Context {sys : Env}.

Lemma find_from_spec (url rev : string) (l : list (option index.IndexRef)) :
  ∀ k,
    match find_from k l url rev with
    | Ok (Some (i, ref)) =>
        ∃ n, i = (k + n)%nat
             ∧ l !! n = Some (Some ref)
             ∧ index.Url ref = url ∧ index.Rev ref = rev
             ∧ ∀ j e, (j < n)%nat → l !! j = Some e → passed_over url rev e
    | Ok None => ∀ j e, l !! j = Some e → passed_over url rev e
    | Panic =>
        ∃ n, l !! n = Some None
             ∧ ∀ j e, (j < n)%nat → l !! j = Some e → passed_over url rev e
    end.
Proof.
  induction l as [|[ref|] l IH]; intros k; simpl.
  - intros j e Hj. by rewrite lookup_nil in Hj.
  - destruct (String.eqb_spec (index.Url ref) url) as [Hu|Hu]; simpl.
    + destruct (String.eqb_spec (index.Rev ref) rev) as [Hr|Hr].
      * exists 0%nat. split; [lia|]. split; [reflexivity|]. split; [exact Hu|].
        split; [exact Hr|]. intros j e Hj. lia.
      * specialize (IH (S k)).
        assert (Hpass : passed_over url rev (Some ref))
          by (exists ref; split; [reflexivity|]; by intros [_ ?]).
        destruct (find_from (S k) l url rev) as [[[i r]|]|].
        -- destruct IH as (n & -> & Hn & Hu' & Hr' & Hbefore).
           exists (S n). split; [lia|]. split; [exact Hn|]. split; [exact Hu'|].
           split; [exact Hr'|]. intros [|j] e Hj He; simpl in He.
           ++ by injection He as <-.
           ++ apply (Hbefore j); [lia | exact He].
        -- intros [|j] e He; simpl in He; [by injection He as <-|]. by apply (IH j).
        -- destruct IH as (n & Hn & Hbefore). exists (S n). split; [exact Hn|].
           intros [|j] e Hj He; simpl in He; [by injection He as <-|].
           apply (Hbefore j); [lia | exact He].
    + specialize (IH (S k)).
      assert (Hpass : passed_over url rev (Some ref))
        by (exists ref; split; [reflexivity|]; by intros [? _]).
      destruct (find_from (S k) l url rev) as [[[i r]|]|].
      * destruct IH as (n & -> & Hn & Hu' & Hr' & Hbefore).
        exists (S n). split; [lia|]. split; [exact Hn|]. split; [exact Hu'|].
        split; [exact Hr'|]. intros [|j] e Hj He; simpl in He.
        -- by injection He as <-.
        -- apply (Hbefore j); [lia | exact He].
      * intros [|j] e He; simpl in He; [by injection He as <-|]. by apply (IH j).
      * destruct IH as (n & Hn & Hbefore). exists (S n). split; [exact Hn|].
        intros [|j] e Hj He; simpl in He; [by injection He as <-|].
        apply (Hbefore j); [lia | exact He].
  - exists 0%nat. split; [reflexivity|]. intros j e Hj. lia.
Qed.


End found_refs.

(** What [find] returns, by the position of the first match. *)
Lemma find_spec (found : foundRefs) (url rev : string) :
  match find found url rev with
  | Ok (Some (i, ref)) =>
      refs found !! i = Some (Some ref)
      ∧ index.Url ref = url ∧ index.Rev ref = rev
      ∧ ∀ j e, (j < i)%nat → refs found !! j = Some e → passed_over url rev e
  | Ok None => ∀ j e, refs found !! j = Some e → passed_over url rev e
  | Panic =>
      ∃ i, refs found !! i = Some None
           ∧ ∀ j e, (j < i)%nat → refs found !! j = Some e → passed_over url rev e
  end.
Proof.
  unfold find. pose proof (find_from_spec url rev (refs found) 0) as Hspec.
  destruct (find_from 0 (refs found) url rev) as [[[i ref]|]|]; [|exact Hspec..].
  destruct Hspec as (n & -> & Hspec). exact Hspec.
Qed.

(** X16. [find] returns the first reference, in the order of the found
    set, that is for the url and the revision; it returns none only when
    every reference is for another url or revision; and it panics
    exactly when it meets a nil reference before any match. *)
Theorem find_first (found : foundRefs) (url rev : string) :
  match find found url rev with
  | Ok (Some (i, ref)) =>
      refs found !! i = Some (Some ref)
      ∧ index.Url ref = url ∧ index.Rev ref = rev
      ∧ ∀ j e, (j < i)%nat → refs found !! j = Some e → passed_over url rev e
  | Ok None => ∀ j e, refs found !! j = Some e → passed_over url rev e
  | Panic =>
      ∃ i, refs found !! i = Some None
           ∧ ∀ j e, (j < i)%nat → refs found !! j = Some e → passed_over url rev e
  end.
Proof. exact (find_spec found url rev). Qed.




(** ** Startup *)

Section startup.

Lemma collect_lookup (results : list searcherResult) :
  NoDup (name <$> results) →
  ∀ (searchers : gmap string Searcher) (errs : gmap string error),
    let out :=
      foldl (λ '(searchers, errs) r,
               match result r with
               | inr err => (searchers, <[name r := err]> errs)
               | inl s => (<[name r := s]> searchers, errs)
               end)
            (searchers, errs) results in
    ∀ n,
      out.1 !! n = match list_find (λ r, name r = n) results with
                   | Some (_, {| result := inl s |}) => Some s
                   | _ => searchers !! n
                   end
      ∧ out.2 !! n = match list_find (λ r, name r = n) results with
                     | Some (_, {| result := inr e |}) => Some e
                     | _ => errs !! n
                     end.
Proof.
  induction results as [|[n0 res0] rest IH]; intros Hnd searchers errs; [done|].
  apply NoDup_cons in Hnd as [Hn0 Hnd]. intros out n. subst out. simpl.
  assert (Hrest : n = n0 → list_find (λ r, name r = n) rest = None).
  { intros ->. apply list_find_None. apply Forall_forall. intros r Hr Hname.
    apply Hn0. apply list_elem_of_fmap. by exists r. }
  destruct res0 as [s0|e0].
  - destruct (IH Hnd (<[n0 := s0]> searchers) errs n) as [H1 H2].
    rewrite H1, H2. clear H1 H2.
    destruct (decide (n0 = n)) as [<-|Hne].
    + rewrite (Hrest eq_refl). simpl. rewrite lookup_insert_eq. done.
    + rewrite lookup_insert_ne by done.
      destruct (list_find _ rest) as [[i [n1 [s1|e1]]]|]; done.
  - destruct (IH Hnd searchers (<[n0 := e0]> errs) n) as [H1 H2].
    rewrite H1, H2. clear H1 H2.
    destruct (decide (n0 = n)) as [<-|Hne].
    + rewrite (Hrest eq_refl). simpl. rewrite lookup_insert_eq. done.
    + rewrite lookup_insert_ne by done.
      destruct (list_find _ rest) as [[i [n1 [s1|e1]]]|]; done.
Qed.

End startup.

(** The two maps of [collect], by membership in the results. *)
Lemma collect_split (results : list searcherResult) :
  NoDup (name <$> results) →
  (∀ n s, (collect results).1 !! n = Some s
          ↔ {| name := n; result := inl s |} ∈ results)
  ∧ (∀ n e, (collect results).2 !! n = Some e
            ↔ {| name := n; result := inr e |} ∈ results)
  ∧ ∀ n, (collect results).1 !! n = None ∨ (collect results).2 !! n = None.
Proof.
  intros Hnd.
  pose proof (collect_lookup results Hnd ∅ ∅) as Hlook. cbv zeta in Hlook.
  fold (collect results) in Hlook.
  assert (Hfind : ∀ n res,
            {| name := n; result := res |} ∈ results
            ↔ ∃ i, list_find (λ r, name r = n) results
                   = Some (i, {| name := n; result := res |})).
  { intros n res. split.
    - intros Hin. apply list_elem_of_lookup in Hin as [i Hi].
      destruct (list_find (λ r, name r = n) results) as [[j r]|] eqn:Hj.
      + apply list_find_Some in Hj as (Hj & Hname & _).
        assert (i = j) as <-.
        { eapply NoDup_lookup; [exact Hnd| |].
          - rewrite list_lookup_fmap, Hi. reflexivity.
          - rewrite list_lookup_fmap, Hj. simpl. by rewrite Hname. }
        rewrite Hi in Hj. injection Hj as <-. by exists i.
      + apply list_find_None in Hj. rewrite Forall_forall in Hj.
        exfalso. eapply Hj; [eapply list_elem_of_lookup_2; exact Hi | reflexivity].
    - intros [i Hi]. apply list_find_Some in Hi as (Hi & _).
      eapply list_elem_of_lookup_2. exact Hi. }
  split; [|split].
  - intros n s. destruct (Hlook n) as [-> _]. rewrite Hfind.
    destruct (list_find _ results) as [[i [n1 [s1|e1]]]|] eqn:Hf.
    + split; [intros [= <-]|intros [j [= <- <- <-]]].
      * apply list_find_Some in Hf as (_ & Hname & _). simpl in Hname. subst n1. by exists i.
      * reflexivity.
    + rewrite lookup_empty. split; [discriminate|]. intros [j [=]].
    + rewrite lookup_empty. split; [discriminate|]. intros [j [=]].
  - intros n e. destruct (Hlook n) as [_ ->]. rewrite Hfind.
    destruct (list_find _ results) as [[i [n1 [s1|e1]]]|] eqn:Hf.
    + rewrite lookup_empty. split; [discriminate|]. intros [j [=]].
    + split; [intros [= <-]|intros [j [= <- <- <-]]].
      * apply list_find_Some in Hf as (_ & Hname & _). simpl in Hname. subst n1. by exists i.
      * reflexivity.
    + rewrite lookup_empty. split; [discriminate|]. intros [j [=]].
  - intros n. destruct (Hlook n) as [-> ->].
    destruct (list_find _ results) as [[i [n1 [s1|e1]]]|]; rewrite ?lookup_empty; auto.
Qed.

(** X19. [MakeAll] sorts the results of the builds, one per configured
    name, into two maps that share no name: a repository is in the live
    map with its searcher exactly when its build succeeded, and in the
    error map with its error exactly when it failed. *)
Theorem collect_partition (results : list searcherResult) :
  NoDup (name <$> results) →
  (∀ n s, (collect results).1 !! n = Some s
          ↔ {| name := n; result := inl s |} ∈ results)
  ∧ (∀ n e, (collect results).2 !! n = Some e
            ↔ {| name := n; result := inr e |} ∈ results)
  ∧ ∀ n, (collect results).1 !! n = None ∨ (collect results).2 !! n = None.
Proof. exact (collect_split results). Qed.

Lemma collect_partition_witness :
  let results :=
    [ {| name := "A"; result := inl example.sA |};
      {| name := "B"; result := inr "Location file:///tmp/B not found."%string |} ] in
  NoDup (name <$> results)
  ∧ (collect results).1 !! "A"%string = Some example.sA
  ∧ (collect results).1 !! "B"%string = None.
Proof.
  cbv zeta.
  assert (Hnd : NoDup (name <$> [ {| name := "A"; result := inl example.sA |};
                                  {| name := "B";
                                     result := inr "Location file:///tmp/B not found."%string |} ])).
  { simpl. apply NoDup_cons. split; [|apply NoDup_singleton].
    intros Hin. apply list_elem_of_singleton in Hin. discriminate Hin. }
  split; [exact Hnd|].
  destruct (collect_partition _ Hnd) as (Hlive & _ & _).
  split.
  - apply Hlive. apply elem_of_cons. left. reflexivity.
  - vm_compute. reflexivity.
Defined.

(** ** The local driver *)

Section local.

Lemma strip_prefix_app (p s : string) : strip_prefix p (p +:+ s) = Some s.
Proof.
  induction p as [|a p IH]; [by destruct s|].
  rewrite append_String. simpl. by rewrite Ascii.eqb_refl.
Qed.

End local.

(** X20. The local driver takes the path of a [file://] url as the
    working directory, wherever the database is, and never fails to; its
    pull leaves the directories as they are. *)
Theorem local_working_dir (dbpath path : string) (repo : config.Repo) :
  config.Url repo = ("file://" +:+ path)%string →
  WorkingDirForRepo vcs.LocalDriver dbpath repo = inl path
  ∧ ∀ dir url w, (PullOrClone vcs.LocalDriver dir url w).2 = w.
Proof.
  intros Hurl. split.
  - simpl. unfold vcs.TrimPrefix. rewrite Hurl.
    by rewrite (strip_prefix_app "file://" path).
  - intros dir url w. simpl. by destruct (w !! dir).
Qed.

Lemma local_working_dir_witness :
  config.Url (example.repo_of "file:///tmp/A" None None) = ("file://" +:+ "/tmp/A")%string
  ∧ WorkingDirForRepo vcs.LocalDriver "data" (example.repo_of "file:///tmp/A" None None)
    = inl "/tmp/A"%string.
Proof.
  split; [reflexivity|].
  exact (proj1 (local_working_dir "data" "/tmp/A"
                  (example.repo_of "file:///tmp/A" None None) eq_refl)).
Defined.

(** ** Releasing the refresh loop *)

(** X21. The event that releases a refresh loop held at its start is
    not told apart from a request for an update: on a searcher with an
    empty mailbox and push updates enabled, [Update] leaves the searcher
    exactly as [begin] does, and the loop then starts, taking the event
    out again. *)
Theorem update_releases_like_begin {sys : Env} (st : state) (repo : config.Repo)
    (now : Z) :
  updateCh (sr st) = [] →
  Repo (sr st) = Some repo →
  config.PushUpdatesEnabled repo = true →
  begin now (sr st) = Some (Update now (sr st)).2
  ∧ start (with_sr (λ s, (Update now s).2) st) = Some (Ok (Continue, poll_delay repo, st)).
Proof.
  intros Hempty Hrepo Hpush.
  destruct st as [[i r v u q c d] w l g]. simpl in Hempty, Hrepo. subst u r.
  unfold begin, start, Update, try_send, updateCh_cap, with_sr. simpl.
  rewrite !Hpush. simpl. rewrite ?Hpush, ?andb_false_r. split; reflexivity.
Qed.

Lemma update_releases_like_begin_witness :
  let st : state (sys := example.env) :=
    @Build_state example.env example.sA example.no_dirs 0 [] in
  (updateCh (sr st) = []
   ∧ Repo (sr st) = Some (example.repo_of "file:///tmp/A" (Some true) None)
   ∧ config.PushUpdatesEnabled (example.repo_of "file:///tmp/A" (Some true) None) = true)
  ∧ begin 3 (sr st) = Some (Update 3 (sr st)).2.
Proof.
  cbv zeta. split; [repeat split|].
  exact (proj1 (update_releases_like_begin (sys := example.env)
                  (@Build_state example.env example.sA example.no_dirs 0 [])
                  (example.repo_of "file:///tmp/A" (Some true) None) 3
                  eq_refl eq_refl eq_refl)).
Defined.



(** ** Reloading the configuration *)

(** A loop over the entries of a map, each round of which reads and
    writes only what belongs to the name it is at, does to a name what
    the one round for that name does. *)
Section local_fold.
Context {S V A : Type} (view : string → S → V) (f : S → string * A → S).
Hypothesis f_other : ∀ d k name a, k ≠ name → view k (f d (name, a)) = view k d.
Hypothesis f_same : ∀ d d' k a,
  view k d = view k d' → view k (f d (k, a)) = view k (f d' (k, a)).

Lemma fold_view_other (l : list (string * A)) :
  ∀ d k, k ∉ l.*1 → view k (foldl f d l) = view k d.
Proof.
  induction l as [|[n a] l IH]; intros d k Hk; [reflexivity|].
  simpl in *. apply not_elem_of_cons in Hk as [Hne Hk].
  rewrite (IH _ _ Hk). by apply f_other.
Qed.

Lemma fold_view_at (l : list (string * A)) :
  ∀ d k a, NoDup l.*1 → (k, a) ∈ l → view k (foldl f d l) = view k (f d (k, a)).
Proof.
  induction l as [|[n b] l IH]; intros d k a Hnd Hin; [by apply elem_of_nil in Hin|].
  simpl in *. apply NoDup_cons in Hnd as [Hn Hnd].
  apply elem_of_cons in Hin as [[= -> ->]|Hin].
  - by apply fold_view_other.
  - rewrite (IH _ _ _ Hnd Hin). apply f_same. apply f_other.
    intros ->. apply Hn. apply list_elem_of_fmap. by exists (n, a).
Qed.

End local_fold.

Section reload_facts.
Context {sched : Sched} (ToJsonString : config.Repo → string).

Lemma mark_other d k name a :
  k ≠ name → reload_at k (main.mark ToJsonString d (name, a)) = reload_at k d.
Proof.
  intros Hne. unfold main.mark, reload_at.
  destruct (main.cfgn_Repos d !! name) as [r1|]; [destruct (String.eqb _ _)|]; simpl;
    rewrite ?lookup_delete_ne, ?lookup_insert_ne by done; reflexivity.
Qed.

Lemma mark_same d d' k a :
  reload_at k d = reload_at k d' →
  reload_at k (main.mark ToJsonString d (k, a))
  = reload_at k (main.mark ToJsonString d' (k, a)).
Proof.
  unfold reload_at. intros [= H1 H2 H3]. unfold main.mark. rewrite <- H2.
  destruct (main.cfgn_Repos d !! k) as [r1|] eqn:Hk;
    [destruct (String.eqb _ _)|]; simpl;
    rewrite ?lookup_delete_eq, ?lookup_insert_eq; congruence.
Qed.

Lemma add_back_other d k name a :
  k ≠ name → reload_at k (main.add_back d (name, a)) = reload_at k d.
Proof.
  intros Hne. unfold main.add_back, reload_at.
  destruct (main.cfg_Repos d !! name) as [r1|]; [destruct (bool_decide _)|]; simpl;
    rewrite ?lookup_insert_ne by done; reflexivity.
Qed.

Lemma add_back_same d d' k a :
  reload_at k d = reload_at k d' →
  reload_at k (main.add_back d (k, a)) = reload_at k (main.add_back d' (k, a)).
Proof.
  unfold reload_at. intros [= H1 H2 H3]. unfold main.add_back. rewrite <- H1, <- H3.
  destruct (main.cfg_Repos d !! k) as [r1|] eqn:Hk;
    [destruct (bool_decide _)|]; simpl;
    rewrite ?lookup_insert_eq; congruence.
Qed.

End reload_facts.

(** The three components of [diff] at one name. *)
Lemma diff_at {sched : Sched} (ToJsonString : config.Repo → string)
    (cfg cfgn : gmap string config.Repo) (name : string) :
  reload_at name (main.diff ToJsonString cfg cfgn)
  = match cfg !! name, cfgn !! name with
    | Some old, Some new =>
        if String.eqb (ToJsonString old) (ToJsonString new)
        then (Some old, None, None)
        else (Some new, Some new, Some name)
    | Some old, None => (None, None, Some name)
    | None, Some new => (Some new, Some new, None)
    | None, None => (None, None, None)
    end.
Proof.
  unfold main.diff. cbv zeta.
  set (d0 := {| main.cfg_Repos := cfg; main.cfgn_Repos := cfgn; main.deleted := ∅ |}).
  set (d1 := foldl (main.mark ToJsonString) d0 (range cfg)).
  assert (H1 : reload_at name d1
               = match cfg !! name, cfgn !! name with
                 | Some old, Some new =>
                     if String.eqb (ToJsonString old) (ToJsonString new)
                     then (Some old, None, None)
                     else (Some old, Some new, Some name)
                 | Some old, None => (None, None, Some name)
                 | None, new => (None, new, None)
                 end).
  { subst d1. destruct (cfg !! name) as [old|] eqn:Hold.
    - rewrite (fold_view_at reload_at (main.mark ToJsonString)
                 (mark_other ToJsonString) (mark_same ToJsonString)
                 (range cfg) d0 name old (range_keys_NoDup cfg))
        by (by apply elem_of_range).
      unfold main.mark, reload_at. simpl.
      destruct (cfgn !! name) as [new|] eqn:Hnew; simpl.
      + destruct (String.eqb _ _); simpl.
        * by rewrite Hold, lookup_delete_eq, lookup_empty.
        * by rewrite Hold, Hnew, lookup_insert_eq.
      + by rewrite lookup_delete_eq, Hnew, lookup_insert_eq.
    - rewrite (fold_view_other reload_at (main.mark ToJsonString)
                 (mark_other ToJsonString) (range cfg) d0 name).
      + unfold reload_at. simpl. rewrite Hold, lookup_empty. by destruct (cfgn !! name).
      + intros Hin. apply elem_of_range_keys in Hin as [x Hx]. congruence. }
  destruct (main.cfgn_Repos d1 !! name) as [new|] eqn:Hleft.
  - rewrite (fold_view_at reload_at main.add_back add_back_other add_back_same
               (range (main.cfgn_Repos d1)) d1 name new (range_keys_NoDup _))
      by (by apply elem_of_range).
    unfold reload_at in H1. rewrite Hleft in H1.
    unfold main.add_back, reload_at.
    destruct (cfg !! name) as [old|], (cfgn !! name) as [new'|];
      try destruct (String.eqb _ _);
      apply pair_equal_spec in H1 as [H1 Hd]; apply pair_equal_spec in H1 as [Hc Hn];
      try discriminate;
      rewrite Hc; simpl; rewrite ?Hd; simpl;
      rewrite ?lookup_insert_eq, ?Hleft, ?Hd; congruence.
  - rewrite (fold_view_other reload_at main.add_back add_back_other
               (range (main.cfgn_Repos d1)) d1 name).
    + rewrite H1. unfold reload_at in H1. rewrite Hleft in H1.
      destruct (cfg !! name) as [old|], (cfgn !! name) as [new'|];
        try destruct (String.eqb _ _);
        apply pair_equal_spec in H1 as [H1 Hd]; apply pair_equal_spec in H1 as [Hc Hn];
        try discriminate; reflexivity.
    + intros Hin. apply elem_of_range_keys in Hin as [x Hx]. congruence.
Qed.

(** X23. The difference between the running and the new configuration,
    name by name and whatever the order of the maps.  Left to build are
    the repositories that are new or whose descriptor serializes
    differently; marked for stopping are the ones that are gone or
    changed; and the running configuration ends up with the names of the
    new one, an unchanged repository keeping its old descriptor. *)
Theorem diff_by_name {sched : Sched} (ToJsonString : config.Repo → string)
    (cfg cfgn : gmap string config.Repo) (name : string) :
  reload_at name (main.diff ToJsonString cfg cfgn)
  = match cfg !! name, cfgn !! name with
    | Some old, Some new =>
        if String.eqb (ToJsonString old) (ToJsonString new)
        then (Some old, None, None)
        else (Some new, Some new, Some name)
    | Some old, None => (None, None, Some name)
    | None, Some new => (Some new, Some new, None)
    | None, None => (None, None, None)
    end.
Proof. exact (diff_at ToJsonString cfg cfgn name). Qed.

Section live_map.
Context {sched : Sched}.

Lemma stop_deleted_lookup (searchers : gmap string Searcher)
    (deleted : gmap string string) (name : string) :
  (main.stop_deleted searchers deleted).1 !! name
  = if bool_decide (is_Some (deleted !! name)) then None else searchers !! name.
Proof.
  unfold main.stop_deleted, len_map. simpl.
  destruct (0 <? Z.of_nat (size deleted)) eqn:Hsize.
  - set (f := λ '(live, stopped) '(n, s),
               if bool_decide (is_Some (deleted !! n))
               then (delete n live, stopped ++ [Stop s])
               else ((live : gmap string Searcher), (stopped : list Searcher))).
    set (view := λ (k : string) (st : gmap string Searcher * list Searcher), st.1 !! k).
    assert (Hother : ∀ d k n a, k ≠ n → view k (f d (n, a)) = view k d).
    { intros [live stopped] k n a Hne. unfold view, f.
      destruct (bool_decide _); simpl; [by rewrite lookup_delete_ne|reflexivity]. }
    assert (Hsame : ∀ d d' k a, view k d = view k d' →
                      view k (f d (k, a)) = view k (f d' (k, a))).
    { intros [live stopped] [live' stopped'] k a Hv. unfold view, f in *.
      destruct (bool_decide _); simpl; [by rewrite !lookup_delete_eq | exact Hv]. }
    change ((foldl f (searchers, []) (range searchers)).1 !! name)
      with (view name (foldl f (searchers, []) (range searchers))).
    destruct (searchers !! name) as [s|] eqn:Hs.
    + rewrite (fold_view_at view f Hother Hsame (range searchers) _ name s
                 (range_keys_NoDup _)) by (by apply elem_of_range).
      unfold view, f. destruct (bool_decide _); simpl;
        [by rewrite lookup_delete_eq | exact Hs].
    + rewrite (fold_view_other view f Hother (range searchers) _ name).
      * unfold view. simpl. rewrite Hs. by destruct (bool_decide _).
      * intros Hin. apply elem_of_range_keys in Hin as [x Hx]. congruence.
  - apply Z.ltb_ge in Hsize. assert (deleted = ∅) as ->
      by (apply map_size_empty_inv; lia).
    simpl. rewrite lookup_empty. rewrite bool_decide_eq_false_2; [reflexivity|].
    by intros [? ?].
Qed.

Lemma add_searchers_lookup (searchers idxn : gmap string Searcher) (name : string) :
  main.add_searchers searchers idxn !! name
  = match idxn !! name with
    | Some s => Some s
    | None => searchers !! name
    end.
Proof.
  unfold main.add_searchers.
  set (f := λ (live : gmap string Searcher) '(n, s), <[n := (s : Searcher)]> live).
  set (view := λ (k : string) (m : gmap string Searcher), m !! k).
  assert (Hother : ∀ d k n a, k ≠ n → view k (f d (n, a)) = view k d).
  { intros d k n a Hne. unfold view, f. by rewrite lookup_insert_ne. }
  assert (Hsame : ∀ d d' k a, view k d = view k d' →
                    view k (f d (k, a)) = view k (f d' (k, a))).
  { intros d d' k a _. unfold view, f. by rewrite !lookup_insert_eq. }
  change (foldl f searchers (range idxn) !! name)
    with (view name (foldl f searchers (range idxn))).
  destruct (idxn !! name) as [s|] eqn:Hs.
  - rewrite (fold_view_at view f Hother Hsame (range idxn) _ name s
               (range_keys_NoDup _)) by (by apply elem_of_range).
    unfold view, f. by rewrite lookup_insert_eq.
  - rewrite (fold_view_other view f Hother (range idxn) _ name); [reflexivity|].
    intros Hin. apply elem_of_range_keys in Hin as [x Hx]. congruence.
Qed.

Lemma drop_failed_lookup (cfg : gmap string config.Repo) (errs : gmap string error)
    (name : string) :
  main.drop_failed cfg errs !! name
  = if bool_decide (is_Some (errs !! name)) then None else cfg !! name.
Proof.
  unfold main.drop_failed, len_map. simpl.
  destruct (0 <? Z.of_nat (size errs)) eqn:Hsize.
  - set (f := λ (repos : gmap string config.Repo) (e : string * error),
                let '(n, _) := e in delete n repos).
    set (view := λ (k : string) (m : gmap string config.Repo), m !! k).
    assert (Hother : ∀ d k n a, k ≠ n → view k (f d (n, a)) = view k d).
    { intros d k n a Hne. unfold view, f. by rewrite lookup_delete_ne. }
    assert (Hsame : ∀ d d' k a, view k d = view k d' →
                      view k (f d (k, a)) = view k (f d' (k, a))).
    { intros d d' k a _. unfold view, f. by rewrite !lookup_delete_eq. }
    change (foldl f cfg (range errs) !! name)
      with (view name (foldl f cfg (range errs))).
    destruct (errs !! name) as [e|] eqn:He.
    + rewrite (fold_view_at view f Hother Hsame (range errs) _ name e
                 (range_keys_NoDup _)) by (by apply elem_of_range).
      unfold view, f. rewrite lookup_delete_eq.
      by rewrite bool_decide_eq_true_2.
    + rewrite (fold_view_other view f Hother (range errs) _ name).
      * rewrite bool_decide_eq_false_2; [reflexivity|]. by intros [? ?].
      * intros Hin. apply elem_of_range_keys in Hin as [x Hx]. congruence.
  - apply Z.ltb_ge in Hsize. assert (errs = ∅) as ->
      by (apply map_size_empty_inv; lia).
    rewrite lookup_empty. rewrite bool_decide_eq_false_2; [reflexivity|].
    by intros [? ?].
Qed.

End live_map.

(** X24. After a reload the live map has, under each name, the searcher
    that was just built for it, if one was; otherwise a repository whose
    descriptor is unchanged keeps the very searcher it had, a name the
    running configuration did not have keeps what the map had, and a
    repository that is gone or changed has none. *)
Theorem reload_keeps_unchanged {sched : Sched} (ToJsonString : config.Repo → string)
    (cfg cfgn : gmap string config.Repo) (searchers idxn : gmap string Searcher)
    (name : string) :
  let d := main.diff ToJsonString cfg cfgn in
  main.add_searchers (main.stop_deleted searchers (main.deleted d)).1 idxn !! name
  = match idxn !! name with
    | Some s => Some s
    | None =>
        match cfg !! name, cfgn !! name with
        | Some old, Some new =>
            if String.eqb (ToJsonString old) (ToJsonString new)
            then searchers !! name
            else None
        | Some old, None => None
        | None, _ => searchers !! name
        end
    end.
Proof.
  cbv zeta. rewrite add_searchers_lookup, stop_deleted_lookup.
  destruct (idxn !! name) as [s|]; [reflexivity|].
  pose proof (diff_at ToJsonString cfg cfgn name) as Hd.
  unfold reload_at in Hd.
  destruct (cfg !! name) as [old|], (cfgn !! name) as [new|];
    try destruct (String.eqb _ _);
    apply pair_equal_spec in Hd as [_ ->]; reflexivity.
Qed.

(** X25. After startup the configuration and the live map have the same
    names: when [MakeAll] was given one result for each configured
    repository, the repositories left in the configuration once the
    failed ones are dropped are the ones that have a searcher. *)
Theorem startup_config_matches_live {sched : Sched} (cfg : gmap string config.Repo)
    (results : list searcherResult) (n : string) :
  NoDup (name <$> results) →
  (∀ k, is_Some (cfg !! k) ↔ k ∈ name <$> results) →
  is_Some (main.drop_failed cfg (collect results).2 !! n)
  ↔ is_Some ((collect results).1 !! n).
Proof.
  intros Hnd Hnames.
  destruct (collect_split results Hnd) as (Hlive & Herr & _).
  rewrite drop_failed_lookup.
  destruct ((collect results).2 !! n) as [e|] eqn:He.
  - rewrite bool_decide_eq_true_2 by eauto.
    split; [by intros [? ?]|]. intros [s Hs].
    apply Hlive in Hs. apply Herr in He.
    apply list_elem_of_lookup in Hs as [i Hi]. apply list_elem_of_lookup in He as [j Hj].
    assert (i = j) as ->.
    { eapply NoDup_lookup; [exact Hnd| |].
      - rewrite list_lookup_fmap, Hi. reflexivity.
      - rewrite list_lookup_fmap, Hj. reflexivity. }
    rewrite Hi in Hj. discriminate Hj.
  - rewrite bool_decide_eq_false_2 by (by intros [? ?]).
    rewrite Hnames. split.
    + intros Hin. apply list_elem_of_fmap in Hin as ([n' [s|e]] & -> & Hin); simpl.
      * exists s. by apply Hlive.
      * apply Herr in Hin. simpl in He. congruence.
    + intros [s Hs]. apply Hlive in Hs. apply list_elem_of_fmap.
      by exists {| name := n; result := inl s |}.
Qed.

Lemma startup_config_matches_live_witness :
  let results :=
    [ {| name := "A"; result := inl example.sA |};
      {| name := "B"; result := inr "Location file:///tmp/B not found."%string |} ] in
  let cfg : gmap string config.Repo :=
    {[ "A"%string := example.repo_of "file:///tmp/A" None None;
       "B"%string := example.repo_of "file:///tmp/B" None None ]} in
  (NoDup (name <$> results)
   ∧ ∀ k, is_Some (cfg !! k) ↔ k ∈ name <$> results)
  ∧ (is_Some (main.drop_failed (sched := in_order) cfg (collect results).2 !! "B"%string)
     ↔ is_Some ((collect results).1 !! "B"%string)).
Proof.
  cbv zeta.
  assert (Hnd : NoDup (name <$> [ {| name := "A"; result := inl example.sA |};
                                  {| name := "B";
                                     result := inr "Location file:///tmp/B not found."%string |} ])).
  { simpl. apply NoDup_cons. split; [|apply NoDup_singleton].
    intros Hin. apply list_elem_of_singleton in Hin. discriminate Hin. }
  assert (Hnames : ∀ k,
            is_Some (({[ "A"%string := example.repo_of "file:///tmp/A" None None;
                         "B"%string := example.repo_of "file:///tmp/B" None None ]}
                        : gmap string config.Repo) !! k)
            ↔ k ∈ name <$> [ {| name := "A"; result := inl example.sA |};
                             {| name := "B";
                                result := inr "Location file:///tmp/B not found."%string |} ]).
  { intros k. simpl. split.
    - intros [x Hx]. apply lookup_insert_Some in Hx as [[<- _]|[_ Hx]].
      + apply elem_of_cons. by left.
      + apply lookup_singleton_Some in Hx as [<- _].
        apply elem_of_cons. right. apply elem_of_cons. by left.
    - intros Hin. apply elem_of_cons in Hin as [->|Hin].
      + eexists. vm_compute. reflexivity.
      + apply list_elem_of_singleton in Hin as ->. eexists. vm_compute. reflexivity. }
  split; [split; assumption|].
  exact (startup_config_matches_live (sched := in_order) _ _ "B" Hnd Hnames).
Defined.

(** ** Names of index directories *)

Section index_names.

Lemma hex_digit_value (d : Z) :
  0 ≤ d < 16 → Index "0123456789abcdef" (hex_digit d) = d.
Proof.
  intros Hd.
  assert (Hcases : d = 0 ∨ d = 1 ∨ d = 2 ∨ d = 3 ∨ d = 4 ∨ d = 5 ∨ d = 6 ∨ d = 7
                   ∨ d = 8 ∨ d = 9 ∨ d = 10 ∨ d = 11 ∨ d = 12 ∨ d = 13 ∨ d = 14
                   ∨ d = 15) by lia.
  repeat (destruct Hcases as [->|Hcases]; [reflexivity|]). by subst d.
Qed.

Lemma hex_fuel_value (fuel : nat) :
  ∀ n acc,
    0 ≤ n < 16 ^ Z.of_nat fuel →
    hex_value (hex_fuel fuel n acc) = n * 16 ^ Z.of_nat (String.length acc) + hex_value acc.
Proof.
  induction fuel as [|fuel IH]; intros n acc Hn.
  - simpl in *. assert (n = 0) as -> by lia. lia.
  - cbn [hex_fuel]. cbv zeta.
    assert (Hmod : 0 ≤ n mod 16 < 16) by (apply Z.mod_pos_bound; lia).
    destruct (n <? 16) eqn:Hlt.
    + apply Z.ltb_lt in Hlt. rewrite Z.mod_small by lia.
      cbn [hex_value]. rewrite hex_digit_value by lia. reflexivity.
    + apply Z.ltb_ge in Hlt. rewrite IH.
      * cbn [hex_value String.length]. rewrite hex_digit_value by lia.
        rewrite Nat2Z.inj_succ, Z.pow_succ_r by lia.
        pose proof (Z.div_mod n 16 ltac:(lia)) as Hdm. nia.
      * rewrite Nat2Z.inj_succ, Z.pow_succ_r in Hn by lia.
        split; [apply Z.div_pos; lia|]. apply Z.div_lt_upper_bound; lia.
Qed.

Lemma hex_fuel_length (fuel : nat) :
  ∀ n acc, (String.length (hex_fuel fuel n acc) ≤ fuel + String.length acc)%nat.
Proof.
  induction fuel as [|fuel IH]; intros n acc; [simpl; lia|].
  cbn [hex_fuel]. cbv zeta. destruct (n <? 16).
  - simpl. lia.
  - etrans; [apply IH|]. simpl. lia.
Qed.

Lemma zeros_value (k : nat) (h : string) :
  hex_value (string_of_list_ascii (replicate k "0"%char) +:+ h) = hex_value h
  ∧ String.length (string_of_list_ascii (replicate k "0"%char) +:+ h)
    = (k + String.length h)%nat.
Proof.
  induction k as [|k [IH1 IH2]]; [done|].
  change (string_of_list_ascii (replicate (S k) "0"%char) +:+ h)
    with (String "0" (string_of_list_ascii (replicate k "0"%char) +:+ h)).
  cbn [hex_value String.length].
  rewrite IH1, IH2. split; [|reflexivity].
  change (Index "0123456789abcdef" "0") with 0. lia.
Qed.

End index_names.

(** A 64-bit number is written with 8 to 16 lower-case hexadecimal
    digits, and reading them yields the number. *)
Lemma hex08_round_trip (n : Z) :
  0 ≤ n < 2 ^ 64 →
  hex_value (hex08 n) = n
  ∧ (8 ≤ String.length (hex08 n) ≤ 16)%nat
  ∧ ∀ m, 0 ≤ m < 2 ^ 64 → hex08 m = hex08 n → m = n.
Proof.
  assert (Hval : ∀ k, 0 ≤ k < 2 ^ 64 → hex_value (hex08 k) = k).
  { intros k Hk. unfold hex08. cbv zeta.
    rewrite (proj1 (zeros_value _ _)).
    rewrite hex_fuel_value by (change (16 ^ Z.of_nat 16) with (2 ^ 64); lia).
    simpl. lia. }
  intros Hn. split; [by apply Hval|]. split.
  - unfold hex08. cbv zeta. rewrite (proj2 (zeros_value _ _)).
    pose proof (hex_fuel_length 16 n EmptyString) as Hlen.
    change (String.length "") with 0%nat in Hlen. lia.
  - intros m Hm Heq. rewrite <- (Hval m Hm), Heq. by apply Hval.
Qed.

Section random_names.

Lemma lor_halves (hi lo : Z) :
  0 ≤ hi < 2 ^ 32 → 0 ≤ lo < 2 ^ 32 →
  Z.lor (Z.shiftl (to_uint hi) 32 mod 2 ^ 64) (to_uint lo) = hi * 2 ^ 32 + lo.
Proof.
  intros Hhi Hlo. unfold to_uint.
  rewrite (Z.mod_small hi), (Z.mod_small lo) by lia.
  rewrite Z.shiftl_mul_pow2 by lia. rewrite Z.mod_small by lia.
  rewrite <- Z.lxor_lor, <- Z.add_nocarry_lxor; [reflexivity| |];
    (apply Z.bits_inj'; intros k Hk; rewrite Z.land_spec, Z.bits_0;
     destruct (Z.lt_ge_cases k 32) as [Hlow|Hhigh];
     [ rewrite Z.mul_pow2_bits_low by lia; reflexivity
     | rewrite (Z.bits_above_log2 lo k), andb_false_r; [reflexivity | lia |];
       destruct (Z.eq_dec lo 0) as [->|Hne]; [simpl; lia|];
       apply Z.log2_lt_pow2; [lia|];
       assert (2 ^ 32 ≤ 2 ^ k) by (apply Z.pow_le_mono_r; lia); lia ]).
Qed.

End random_names.

(** X26. The name of a new index directory is [idx-] followed by its
    64-bit random number, the first random word being the high half,
    written with 8 to 16 lower-case hexadecimal digits that read back as
    that number: two draws that differ give two names that differ. *)
Theorem nextIndexDir_name {sys : Env} (dbpath : string) (w w1 w2 : World) (hi lo : Z) :
  rand_Uint32 w = (hi, w1) →
  rand_Uint32 w1 = (lo, w2) →
  0 ≤ hi < 2 ^ 32 →
  0 ≤ lo < 2 ^ 32 →
  ∃ digits,
    nextIndexDir dbpath w = (filepath_Join [dbpath; "idx-" +:+ digits], w2)
    ∧ hex_value digits = hi * 2 ^ 32 + lo
    ∧ (8 ≤ String.length digits ≤ 16)%nat
    ∧ ∀ hi' lo', 0 ≤ hi' < 2 ^ 32 → 0 ≤ lo' < 2 ^ 32 →
        hex08 (hi' * 2 ^ 32 + lo') = digits → hi' = hi ∧ lo' = lo.
Proof.
  intros Hrand1 Hrand2 Hhi Hlo. unfold nextIndexDir. rewrite Hrand1, Hrand2.
  rewrite (lor_halves hi lo Hhi Hlo).
  assert (Hn : 0 ≤ hi * 2 ^ 32 + lo < 2 ^ 64) by nia.
  destruct (hex08_round_trip _ Hn) as (Hval & Hlen & Hinj).
  eexists. split; [reflexivity|]. split; [exact Hval|]. split; [exact Hlen|].
  intros hi' lo' Hhi' Hlo' Heq.
  assert (hi' * 2 ^ 32 + lo' = hi * 2 ^ 32 + lo) by (apply Hinj; [nia | exact Heq]).
  nia.
Qed.

Lemma nextIndexDir_name_witness :
  (rand_Uint32 (Env := example.env) example.no_dirs = (0, example.no_dirs)
   ∧ 0 ≤ 0 < 2 ^ 32)
  ∧ ∃ digits,
      nextIndexDir (sys := example.env) "data" example.no_dirs
      = (filepath_Join (Env := example.env) ["data"%string; "idx-" +:+ digits],
         example.no_dirs)
      ∧ hex_value digits = 0.
Proof.
  split; [split; [reflexivity | lia]|].
  destruct (nextIndexDir_name (sys := example.env) "data" example.no_dirs
              example.no_dirs example.no_dirs 0 0 eq_refl eq_refl
              ltac:(lia) ltac:(lia)) as (digits & Hname & Hval & _).
  exists digits. split; [exact Hname | exact Hval].
Defined.

(** ** Virtual repositories *)

Section virtual_repos.
Context {sys : Env}.




End virtual_repos.


